(** * The fsm-gen runtime core: event queue, timer service, FSM2 demo machine

    A shallow embedding of
    - [src/fsm-gen/fsm_fifo.cpp]                       (module [Fifo]),
    - [src/fsm-gen/tests/overlap/code/Src/fsm_fifo.cpp] (module [OverlapTest]),
    - [src/fsm-gen/demo/LiveDemo/Src/user_timers.cpp]   (module [UserTimers]),
    - [src/fsm-gen/demo/LiveDemo/Src/FSM2.cpp]          (module [FSM2]),
    followed by the properties of the queue, of the timer service and of
    the two-state machine. *)

From stdpp Require Import base option list numbers.
From Stdlib Require Import ZArith Lia.

Local Open Scope Z_scope.

(** ** C++ integers and arrays *)

(** [int] is 32 bits wide on the target; a result that leaves the range
    wraps around. *)
Definition INT_MIN : Z := - 2 ^ 31.
Definition INT_MAX : Z := 2 ^ 31 - 1.

Definition int_wrap (z : Z) : Z := (z + 2 ^ 31) mod 2 ^ 32 - 2 ^ 31.
Definition int_add (a b : Z) : Z := int_wrap (a + b).
Definition int_mul (a b : Z) : Z := int_wrap (a * b).

(** Conversion to [uint32_t]. *)
Definition to_uint32 (z : Z) : Z := z mod 2 ^ 32.

(** [a[i]] and [a[i] = x] on a C array.  An index outside the array is
    undefined behaviour, which the embedding reports as [None]. *)
Definition array_load {A} (a : list A) (i : Z) : option A :=
  if bool_decide (0 ≤ i) then a !! Z.to_nat i else None.

Definition array_store {A} (a : list A) (i : Z) (x : A) : option (list A) :=
  if bool_decide (0 ≤ i < Z.of_nat (length a))
  then Some (<[Z.to_nat i := x]> a)
  else None.

(** ** The event queue *)

(** Modelled from the spec: the declaration of [Event_FIFO] (fsm_fifo.hpp)
    is not under src/.  Section 3 gives the queue a fixed-size array of
    slots, a [head] index (next slot to read) and a [tail] index (next slot
    to write); the code uses them as [fifo.buffer], [fifo.head] and
    [fifo.tail], both indices as [int]. *)
Record Event_FIFO (FSM_Event : Type) : Type := mkFifo {
  buffer : list FSM_Event;
  head : Z;
  tail : Z
}.
Arguments mkFifo {FSM_Event} _ _ _.
Arguments buffer {FSM_Event} _.
Arguments head {FSM_Event} _.
Arguments tail {FSM_Event} _.

(** [Event_FIFO fifo;] at namespace scope is zero-initialised: every slot
    holds the zero event, and both indices are 0.  [FIFO_SIZE] (fsm_fifo.hpp)
    is a parameter throughout. *)
Definition fifo_initial {FSM_Event} (FIFO_SIZE : Z) (event_zero : FSM_Event)
  : Event_FIFO FSM_Event :=
  mkFifo (replicate (Z.to_nat FIFO_SIZE) event_zero) 0 0.

(** One call made on the queue: the producer's [write_event(e)] or the
    consumer's [read_event(&event)]. *)
Inductive Op (FSM_Event : Type) : Type :=
  | Write (e : FSM_Event)
  | Read.
Arguments Write {FSM_Event} _.
Arguments Read {FSM_Event}.

Section Driver.
Context {FSM_Event St : Type}.
Variable wr : FSM_Event → St → option St.
Variable rd : FSM_Event → St → option (Z * FSM_Event * St).

(** [run ops event s] performs the calls [ops] in order.  [event] is the
    consumer's variable whose address every [Read] passes.  The result
    lists, for each [Read], the returned [int] and the content of the
    variable after the call, then the final variable and state. *)
Fixpoint run (ops : list (Op FSM_Event)) (event : FSM_Event) (s : St)
  : option (list (Z * FSM_Event) * FSM_Event * St) :=
  match ops with
  | [] => Some ([], event, s)
  | Write e :: ops => s' ← wr e s; run ops event s'
  | Read :: ops =>
      '(r, event', s') ← rd event s;
      '(out, eventf, sf) ← run ops event' s';
      Some ((r, event') :: out, eventf, sf)
  end.

(** The events that [fuel] successive reads hand out before the first
    one that returns 0. *)
Fixpoint drain (fuel : nat) (event : FSM_Event) (s : St) : list FSM_Event :=
  match fuel with
  | O => []
  | S fuel =>
      match rd event s with
      | Some (1, event', s') => event' :: drain fuel event' s'
      | _ => []
      end
  end.
End Driver.

(** The host-side build, tests/overlap/code/Src/fsm_fifo.cpp: the only
    state is the global [fifo]. *)
Module OverlapTest.
Section Code.
Context {FSM_Event : Type}.
Variable FIFO_SIZE : Z.

Definition write_event (event : FSM_Event) (fifo : Event_FIFO FSM_Event)
  : option (Event_FIFO FSM_Event) :=
  let next := int_add (tail fifo) 1 in
  if (next =? head fifo) || ((next =? FIFO_SIZE) && (head fifo =? 0))
  then (* Buffer is full! *)
    Some fifo
  else
    buf ← array_store (buffer fifo) (tail fifo) event;
    Some (mkFifo buf (head fifo)
            (if tail fifo =? FIFO_SIZE - 1 then 0 else next)).

(** [event] is the content of the caller's location [*event] before the
    call; the result is the returned [int], the content of the location
    afterwards, and the queue. *)
Definition read_event (event : FSM_Event) (fifo : Event_FIFO FSM_Event)
  : option (Z * FSM_Event * Event_FIFO FSM_Event) :=
  if head fifo =? tail fifo
  then (* Buffer is empty! *)
    Some (0, event, fifo)
  else
    event' ← array_load (buffer fifo) (head fifo);
    Some (1, event',
          mkFifo (buffer fifo)
            (if head fifo =? FIFO_SIZE - 1 then 0 else int_add (head fifo) 1)
            (tail fifo)).

(** The live entries of the queue: what the consumer would still be
    handed.  The array has [length (buffer fifo)] slots, so that many
    reads suffice. *)
Definition live_entries (event : FSM_Event) (fifo : Event_FIFO FSM_Event)
  : list FSM_Event :=
  drain read_event (length (buffer fifo)) event fifo.
End Code.
End OverlapTest.

(** The target build, src/fsm-gen/fsm_fifo.cpp: [write_event] brackets the
    update with [__disable_irq] / [__enable_irq], so the state it acts on
    is the interrupt mask together with the global [fifo]. *)
Module Fifo.
Section Code.
Context {FSM_Event : Type}.
Variable FIFO_SIZE : Z.

(** [primask = true]: interrupts are masked. *)
Record Machine : Type := mkMachine {
  primask : bool;
  fifo : Event_FIFO FSM_Event
}.

(** Modelled from the spec: the intrinsic is not under src/.  Section 4.1:
    interrupts are disabled for the duration of the mutation. *)
Definition __disable_irq (m : Machine) : Machine := mkMachine true (fifo m).

(** Modelled from the spec: the intrinsic is not under src/.  It ends the
    critical section by enabling interrupts. *)
Definition __enable_irq (m : Machine) : Machine := mkMachine false (fifo m).

Definition write_event (event : FSM_Event) (m : Machine) : option Machine :=
  let m := __disable_irq m in
  let next := int_add (tail (fifo m)) 1 in
  m ← (if (next =? head (fifo m))
          || ((next =? FIFO_SIZE) && (head (fifo m) =? 0))
       then (* Buffer is full! *)
         Some m
       else
         buf ← array_store (buffer (fifo m)) (tail (fifo m)) event;
         Some (mkMachine (primask m)
                 (mkFifo buf (head (fifo m))
                    (if tail (fifo m) =? FIFO_SIZE - 1 then 0 else next))));
  Some (__enable_irq m).

Definition read_event (event : FSM_Event) (m : Machine)
  : option (Z * FSM_Event * Machine) :=
  if head (fifo m) =? tail (fifo m)
  then (* Buffer is empty! *)
    Some (0, event, m)
  else
    event' ← array_load (buffer (fifo m)) (head (fifo m));
    Some (1, event',
          mkMachine (primask m)
            (mkFifo (buffer (fifo m))
               (if head (fifo m) =? FIFO_SIZE - 1
                then 0 else int_add (head (fifo m)) 1)
               (tail (fifo m)))).

(** The live entries of the queue, as in the host build. *)
Definition live_entries (event : FSM_Event) (m : Machine) : list FSM_Event :=
  drain read_event (length (buffer (fifo m))) event m.
End Code.
Arguments Machine : clear implicits.
Arguments mkMachine {FSM_Event} _ _.
End Fifo.

(** ** The timer service *)

Module UserTimers.

(** Modelled from the spec: the declaration of [Timer] is not under src/.
    The channels are a fixed enumerated set; the names are the cases of the
    two [switch] statements. *)
Inductive Timer : Type := TIMER_1 | TIMER_2 | TIMER_3 | NUM_TIMERS.

(** Modelled from the spec: the hardware resources the channels drive.
    The elapse callback of the file tells three blocks apart, by
    [TIM1_BASE], [TIM2_BASE] and [TIM3_BASE]. *)
Inductive TIM_Instance : Type := TIM1 | TIM2 | TIM3.

(** Modelled from the spec: what the Timer Service contract says of one
    hardware resource: whether its countdown runs ([CR1_CEN]), whether an
    elapse raises an interrupt ([DIER_UIE]), the pending elapsed-flag
    ([SR_UIF]), its counter ([CNT]), and its time base, prescaler ([PSC])
    and period ([ARR]). *)
Record TIM_TypeDef : Type := mkTIM {
  CR1_CEN : bool;
  DIER_UIE : bool;
  SR_UIF : bool;
  CNT : Z;
  PSC : Z;
  ARR : Z
}.

(** Modelled from the spec: the HAL types are not under src/.  The file
    uses [htim.Init.Period]; the 32-bit period is kept as a [Z]. *)
Record TIM_Base_InitTypeDef : Type := mkInit {
  Prescaler : Z;
  Period : Z
}.

(** Modelled from the spec: a handle names its hardware resource
    ([htim->Instance], as the elapse callback reads it) and carries the
    time base to program. *)
Record TIM_HandleTypeDef : Type := mkHandle {
  Instance : TIM_Instance;
  Init : TIM_Base_InitTypeDef
}.

(** The three timer blocks. *)
Record Peripherals : Type := mkPeripherals {
  regs_TIM1 : TIM_TypeDef;
  regs_TIM2 : TIM_TypeDef;
  regs_TIM3 : TIM_TypeDef
}.

Definition regs (p : Peripherals) (i : TIM_Instance) : TIM_TypeDef :=
  match i with
  | TIM1 => regs_TIM1 p
  | TIM2 => regs_TIM2 p
  | TIM3 => regs_TIM3 p
  end.

Definition set_regs (i : TIM_Instance) (r : TIM_TypeDef) (p : Peripherals)
  : Peripherals :=
  match i with
  | TIM1 => mkPeripherals r (regs_TIM2 p) (regs_TIM3 p)
  | TIM2 => mkPeripherals (regs_TIM1 p) r (regs_TIM3 p)
  | TIM3 => mkPeripherals (regs_TIM1 p) (regs_TIM2 p) r
  end.

(** The state the file works on: the three [extern] handles and the
    timer blocks behind their [Instance] pointers. *)
Record World : Type := mkWorld {
  htim1 : TIM_HandleTypeDef;
  htim2 : TIM_HandleTypeDef;
  htim3 : TIM_HandleTypeDef;
  timers : Peripherals
}.

Definition on_timers (f : Peripherals → Peripherals) (w : World) : World :=
  mkWorld (htim1 w) (htim2 w) (htim3 w) (f (timers w)).

(** The interrupt source the file names. *)
Inductive TIM_IT : Type := TIM_IT_UPDATE.

(** Modelled from the spec: the HAL timer driver is not under src/.  Every
    call below acts on the block its handle points to, with the effect the
    Timer Service contract (section 4.2) gives it.  [HAL_TIM_Base_Init]
    programs the time base of the block from the handle's [Init]. *)
Definition HAL_TIM_Base_Init (htim : TIM_HandleTypeDef) (p : Peripherals)
  : Peripherals :=
  let r := regs p (Instance htim) in
  set_regs (Instance htim)
    (mkTIM (CR1_CEN r) (DIER_UIE r) (SR_UIF r) (CNT r)
       (Prescaler (Init htim)) (Period (Init htim))) p.

(** Modelled from the spec: the HAL macro is not under src/.  It clears the
    pending elapsed-flag of the block. *)
Definition __HAL_TIM_CLEAR_IT (htim : TIM_HandleTypeDef) (it : TIM_IT)
    (p : Peripherals) : Peripherals :=
  let r := regs p (Instance htim) in
  match it with
  | TIM_IT_UPDATE =>
      set_regs (Instance htim)
        (mkTIM (CR1_CEN r) (DIER_UIE r) false (CNT r) (PSC r) (ARR r)) p
  end.

(** Modelled from the spec: the HAL timer driver is not under src/.  The
    call starts the countdown of the block, with its elapse interrupt. *)
Definition HAL_TIM_Base_Start_IT (htim : TIM_HandleTypeDef) (p : Peripherals)
  : Peripherals :=
  let r := regs p (Instance htim) in
  set_regs (Instance htim)
    (mkTIM true true (SR_UIF r) (CNT r) (PSC r) (ARR r)) p.

(** Modelled from the spec: the HAL timer driver is not under src/.  The
    call halts the countdown of the block, and its elapse interrupt. *)
Definition HAL_TIM_Base_Stop_IT (htim : TIM_HandleTypeDef) (p : Peripherals)
  : Peripherals :=
  let r := regs p (Instance htim) in
  set_regs (Instance htim)
    (mkTIM false false (SR_UIF r) (CNT r) (PSC r) (ARR r)) p.

(** Modelled from the spec: the HAL macro is not under src/.  It sets the
    counter of the block. *)
Definition __HAL_TIM_SET_COUNTER (htim : TIM_HandleTypeDef) (v : Z)
    (p : Peripherals) : Peripherals :=
  let r := regs p (Instance htim) in
  set_regs (Instance htim)
    (mkTIM (CR1_CEN r) (DIER_UIE r) (SR_UIF r) v (PSC r) (ARR r)) p.

(** The timer blocks after each of the three HAL calls of
    [start_hal_timer], in program order.  [htim] is passed by value: the
    assignment to [htim.Init.Period] changes the callee's copy, and the HAL
    calls receive the address of that copy. *)
Definition start_hal_timer_steps (htim : TIM_HandleTypeDef) (ms : Z)
    (p : Peripherals) : list Peripherals :=
  let htim :=
    mkHandle (Instance htim)
      (mkInit (Prescaler (Init htim)) (to_uint32 (int_mul 10 ms))) in
  let p1 := HAL_TIM_Base_Init htim p in
  let p2 := __HAL_TIM_CLEAR_IT htim TIM_IT_UPDATE p1 in
  let p3 := HAL_TIM_Base_Start_IT htim p2 in
  [p1; p2; p3].

(** [start_hal_timer] leaves the blocks as its last call leaves them. *)
Definition start_hal_timer (htim : TIM_HandleTypeDef) (ms : Z)
    (p : Peripherals) : Peripherals :=
  List.last (start_hal_timer_steps htim ms p) p.

Definition start_timer (timer : Timer) (ms : Z) (w : World) : World :=
  match timer with
  | TIMER_1 => on_timers (start_hal_timer (htim1 w) ms) w
  | TIMER_2 => on_timers (start_hal_timer (htim2 w) ms) w
  | TIMER_3 => on_timers (start_hal_timer (htim3 w) ms) w
  | NUM_TIMERS => w
  end.

Definition stop_hal_timer (htim : TIM_HandleTypeDef) (p : Peripherals)
  : Peripherals :=
  let p := HAL_TIM_Base_Stop_IT htim p in
  __HAL_TIM_SET_COUNTER htim 0 p.

Definition stop_timer (timer : Timer) (w : World) : World :=
  match timer with
  | TIMER_1 => on_timers (stop_hal_timer (htim1 w)) w
  | TIMER_2 => on_timers (stop_hal_timer (htim2 w)) w
  | TIMER_3 => on_timers (stop_hal_timer (htim3 w)) w
  | NUM_TIMERS => w
  end.

(** The handle a valid channel is bound to, and through it the block. *)
Definition handle_of (timer : Timer) (w : World) : option TIM_HandleTypeDef :=
  match timer with
  | TIMER_1 => Some (htim1 w)
  | TIMER_2 => Some (htim2 w)
  | TIMER_3 => Some (htim3 w)
  | NUM_TIMERS => None
  end.

Definition valid_channel (timer : Timer) : Prop := timer ≠ NUM_TIMERS.

Definition channel_regs (timer : Timer) (w : World) : option TIM_TypeDef :=
  h ← handle_of timer w; Some (regs (timers w) (Instance h)).

End UserTimers.

(** ** The FSM2 machine *)

Module FSM2.
Import UserTimers.

(** The two state classes of the file. *)
Inductive State : Type := FSM2_S03 | FSM2_S04.

(** Modelled from the spec: the event types (Events.hpp) are not under
    src/; one elapse event is bound to each channel. *)
Inductive Event : Type := TIMER_1_EVENT | TIMER_2_EVENT | TIMER_3_EVENT.

(** Modelled from the spec: the machine instance holds exactly one active
    state; it is kept together with the world of the timer service and the
    state the user's hooks work on. *)
Record Fsm (User : Type) : Type := mkFsm {
  current_state : State;
  world : World;
  user : User
}.
Arguments mkFsm {User} _ _ _.
Arguments current_state {User} _.
Arguments world {User} _.
Arguments user {User} _.

Section Code.
Context {User : Type}.

(** [state_S03()] and [state_S04()] are the user's hooks; they are
    defined outside the file and work on the user's own state. *)
Variable state_S03 : User → User.
Variable state_S04 : User → User.

Definition on_world (f : World → World) (m : Fsm User) : Fsm User :=
  mkFsm (current_state m) (f (world m)) (user m).

Definition on_user (f : User → User) (m : Fsm User) : Fsm User :=
  mkFsm (current_state m) (world m) (f (user m)).

Definition entry (s : State) (m : Fsm User) : Fsm User :=
  match s with
  | FSM2_S03 =>
      let m := on_world (start_timer TIMER_2 500) m in
      on_user state_S03 m
  | FSM2_S04 =>
      let m := on_world (start_timer TIMER_2 500) m in
      on_user state_S04 m
  end.

(** Modelled from the spec: the engine behind [transit<S>()] is not under
    src/.  Section 4.3: the engine marks the next state as the new active
    state, then the new state's entry action runs. *)
Definition transit (next : State) (m : Fsm User) : Fsm User :=
  entry next (mkFsm next (world m) (user m)).

(** The reactions the two classes define.  Modelled from the spec for the
    rest: an event the active state declares no reaction for is ignored. *)
Definition react (s : State) (e : Event) (m : Fsm User) : Fsm User :=
  match s, e with
  | FSM2_S03, TIMER_2_EVENT =>
      let m := on_world (stop_timer TIMER_2) m in
      transit FSM2_S04 m
  | FSM2_S04, TIMER_2_EVENT =>
      let m := on_world (stop_timer TIMER_2) m in
      transit FSM2_S03 m
  | _, _ => m
  end.

(** Modelled from the spec: the dispatcher is not under src/.  Section 4.3:
    an event is delivered to the reaction of the currently active state. *)
Definition dispatch (e : Event) (m : Fsm User) : Fsm User :=
  react (current_state m) e m.

(** [FSM_INITIAL_STATE(FSM2, FSM2_S03)] *)
Definition initial_state : State := FSM2_S03.

(** The machine as constructed: the configured initial state is active. *)
Definition initial (w : World) (u : User) : Fsm User :=
  mkFsm initial_state w u.
End Code.
End FSM2.

(** ** Vocabulary of the properties *)

(** "Advancing an index by one with wraparound". *)
Definition advance (FIFO_SIZE : Z) (i : Z) : Z := (i + 1) mod FIFO_SIZE.

(** The array has [FIFO_SIZE] slots and both indices point into it. *)
Definition fifo_wf {FSM_Event} (FIFO_SIZE : Z) (q : Event_FIFO FSM_Event)
  : Prop :=
  length (buffer q) = Z.to_nat FIFO_SIZE
  ∧ 0 ≤ head q < FIFO_SIZE
  ∧ 0 ≤ tail q < FIFO_SIZE.

(** The distance from [head] to [tail], going round the array. *)
Definition occupancy {FSM_Event} (FIFO_SIZE : Z) (q : Event_FIFO FSM_Event)
  : Z :=
  (tail q - head q) mod FIFO_SIZE.

(** The queue after the slot at [tail] took [e] / the slot at [head] was
    handed out. *)
Definition pushed {FSM_Event} (FIFO_SIZE : Z) (e : FSM_Event)
    (q : Event_FIFO FSM_Event) : Event_FIFO FSM_Event :=
  mkFifo (<[Z.to_nat (tail q) := e]> (buffer q)) (head q)
    (advance FIFO_SIZE (tail q)).

Definition popped {FSM_Event} (FIFO_SIZE : Z) (q : Event_FIFO FSM_Event)
  : Event_FIFO FSM_Event :=
  mkFifo (buffer q) (advance FIFO_SIZE (head q)) (tail q).

(** What a run shows of the target build: the read results, the consumer's
    variable and the queue, without the interrupt mask. *)
Definition queue_view {FSM_Event}
    (x : list (Z * FSM_Event) * FSM_Event * Fifo.Machine FSM_Event)
  : list (Z * FSM_Event) * FSM_Event * Event_FIFO FSM_Event :=
  let '(out, event, m) := x in (out, event, Fifo.fifo m).

(** A timer block at rest: countdown halted, its elapse interrupt off,
    counter at zero. *)
Definition timer_stopped (r : UserTimers.TIM_TypeDef) : Prop :=
  UserTimers.CR1_CEN r = false
  ∧ UserTimers.DIER_UIE r = false
  ∧ UserTimers.CNT r = 0.

(** A timer block counting from zero towards [period], its elapse interrupt
    on and no elapse pending. *)
Definition timer_armed (period : Z) (r : UserTimers.TIM_TypeDef) : Prop :=
  UserTimers.ARR r = period
  ∧ UserTimers.CNT r = 0
  ∧ UserTimers.SR_UIF r = false
  ∧ UserTimers.DIER_UIE r = true
  ∧ UserTimers.CR1_CEN r = true.

(** What a reaction of FSM2 followed by the next entry action does to the
    timer service: TIMER_2 stopped, then started for 500 ms. *)
Definition restart_timer2 (w : UserTimers.World) : UserTimers.World :=
  UserTimers.start_timer UserTimers.TIMER_2 500
    (UserTimers.stop_timer UserTimers.TIMER_2 w).

(** Concrete inputs for the examples below. *)
Definition example_handle (i : UserTimers.TIM_Instance)
  : UserTimers.TIM_HandleTypeDef :=
  UserTimers.mkHandle i (UserTimers.mkInit 7199 0).

Definition example_regs : UserTimers.TIM_TypeDef :=
  UserTimers.mkTIM true true true 42 7199 9.

(** The event indices the elapse callback of the LiveDemo writes. *)
Inductive LiveDemo_Event : Type :=
  | TIMER_1_EVENT_INDEX
  | TIMER_2_EVENT_INDEX
  | TIMER_3_EVENT_INDEX.

Definition example_ops : list (Op LiveDemo_Event) :=
  [Write TIMER_1_EVENT_INDEX; Write TIMER_2_EVENT_INDEX; Read;
   Write TIMER_3_EVENT_INDEX; Write TIMER_1_EVENT_INDEX;
   Write TIMER_2_EVENT_INDEX; Write TIMER_3_EVENT_INDEX; Read; Read].

Definition example_empty : Fifo.Machine LiveDemo_Event :=
  Fifo.mkMachine true (fifo_initial 4 TIMER_1_EVENT_INDEX).

Definition example_full : Fifo.Machine LiveDemo_Event :=
  Fifo.mkMachine false
    (mkFifo
       [TIMER_3_EVENT_INDEX; TIMER_1_EVENT_INDEX; TIMER_2_EVENT_INDEX;
        TIMER_1_EVENT_INDEX]
       2 1).

Definition example_world : UserTimers.World :=
  UserTimers.mkWorld
    (example_handle UserTimers.TIM1)
    (example_handle UserTimers.TIM2)
    (example_handle UserTimers.TIM3)
    (UserTimers.mkPeripherals example_regs example_regs example_regs).

(** ** Vocabulary of the further properties *)

(** The queue as section 4.1 words it, on the list of its live entries:
    [enqueue] appends unless [FIFO_SIZE - 1] entries are held, in which
    case the event is dropped; [dequeue] hands out the oldest entry, or
    reports "nothing available" and leaves the caller's variable alone.
    The result has the shape of [run]. *)
Fixpoint spec_queue_run {FSM_Event} (FIFO_SIZE : Z)
    (ops : list (Op FSM_Event)) (event : FSM_Event) (l : list FSM_Event)
  : list (Z * FSM_Event) * FSM_Event * list FSM_Event :=
  match ops with
  | [] => ([], event, l)
  | Write e :: ops =>
      spec_queue_run FIFO_SIZE ops event
        (if bool_decide (Z.of_nat (length l) < FIFO_SIZE - 1)
         then l ++ [e] else l)
  | Read :: ops =>
      match l with
      | [] =>
          let '(out, eventf, lf) := spec_queue_run FIFO_SIZE ops event [] in
          ((0, event) :: out, eventf, lf)
      | e :: l =>
          let '(out, eventf, lf) := spec_queue_run FIFO_SIZE ops e l in
          ((1, e) :: out, eventf, lf)
      end
  end.

(** Whether a call is the producer's. *)
Definition is_write {FSM_Event} (op : Op FSM_Event) : bool :=
  match op with
  | Write _ => true
  | Read => false
  end.

(** The handle the HAL passes to the elapse callback may belong to any
    timer block of the device, not only to the three of the timer service.
    The callback reads [htim->Instance] alone; [Elapsed_Instance] is that
    pointer as far as the [switch] tells its values apart: the base of
    TIM1, TIM2 or TIM3, or any other address. *)
Inductive Elapsed_Instance : Type :=
  | At_block (i : UserTimers.TIM_Instance)
  | At_other.

(** [HAL_TIM_PeriodElapsedCallback] of user_timers.cpp, on the value of
    [htim->Instance]: each of the three cases writes its event index to the
    queue; the [switch] has no default, so for any other value the callback
    returns without a call.  The [write_event] called is the one of the
    target build. *)
Definition HAL_TIM_PeriodElapsedCallback (FIFO_SIZE : Z)
    (htim_Instance : Elapsed_Instance) (m : Fifo.Machine LiveDemo_Event)
  : option (Fifo.Machine LiveDemo_Event) :=
  match htim_Instance with
  | At_block UserTimers.TIM1 =>
      Fifo.write_event FIFO_SIZE TIMER_1_EVENT_INDEX m
  | At_block UserTimers.TIM2 =>
      Fifo.write_event FIFO_SIZE TIMER_2_EVENT_INDEX m
  | At_block UserTimers.TIM3 =>
      Fifo.write_event FIFO_SIZE TIMER_3_EVENT_INDEX m
  | At_other => Some m
  end.

(** The event index that stands for the elapse of a block of the timer
    service. *)
Definition elapse_event (i : UserTimers.TIM_Instance) : LiveDemo_Event :=
  match i with
  | UserTimers.TIM1 => TIMER_1_EVENT_INDEX
  | UserTimers.TIM2 => TIMER_2_EVENT_INDEX
  | UserTimers.TIM3 => TIMER_3_EVENT_INDEX
  end.

(** The event index an elapse stands for, if it is one of a block of the
    timer service. *)
Definition bound_event (b : Elapsed_Instance) : option LiveDemo_Event :=
  match b with
  | At_block i => Some (elapse_event i)
  | At_other => None
  end.

(** The elapse callback invoked for each of [bs] in turn. *)
Fixpoint elapse_all (FIFO_SIZE : Z) (bs : list Elapsed_Instance)
    (m : Fifo.Machine LiveDemo_Event) : option (Fifo.Machine LiveDemo_Event) :=
  match bs with
  | [] => Some m
  | b :: bs =>
      m' ← HAL_TIM_PeriodElapsedCallback FIFO_SIZE b m;
      elapse_all FIFO_SIZE bs m'
  end.

(** ** Integers and indices *)

Lemma int_wrap_small z : INT_MIN ≤ z ≤ INT_MAX → int_wrap z = z.
Proof.
  unfold INT_MIN, INT_MAX, int_wrap. intros Hz.
  rewrite Z.mod_small by lia. lia.
Qed.

Lemma int_add_small a b : INT_MIN ≤ a + b ≤ INT_MAX → int_add a b = a + b.
Proof. apply int_wrap_small. Qed.

Lemma int_max_val : INT_MAX = 2147483647.
Proof. reflexivity. Qed.

Lemma int_min_val : INT_MIN = -2147483648.
Proof. reflexivity. Qed.

Section Indices.
Variable FIFO_SIZE : Z.
Hypothesis FIFO_SIZE_range : 0 < FIFO_SIZE ≤ INT_MAX.

Lemma advance_cases i :
  0 ≤ i < FIFO_SIZE →
  advance FIFO_SIZE i = if i =? FIFO_SIZE - 1 then 0 else i + 1.
Proof.
  intros Hi. unfold advance. destruct (Z.eqb_spec i (FIFO_SIZE - 1)) as [->|Hne].
  - replace (FIFO_SIZE - 1 + 1) with FIFO_SIZE by lia. apply Z.mod_same. lia.
  - apply Z.mod_small. lia.
Qed.

Lemma advance_range i : 0 ≤ i < FIFO_SIZE → 0 ≤ advance FIFO_SIZE i < FIFO_SIZE.
Proof. intros _. apply Z.mod_pos_bound. lia. Qed.

Lemma mod_cases z :
  - FIFO_SIZE < z < FIFO_SIZE →
  z mod FIFO_SIZE = if 0 <=? z then z else z + FIFO_SIZE.
Proof.
  intros Hz. destruct (Z.leb_spec 0 z).
  - apply Z.mod_small. lia.
  - symmetry. apply (Z.mod_unique _ _ (-1)); lia.
Qed.

Lemma int_add_index i : 0 ≤ i < FIFO_SIZE → int_add i 1 = i + 1.
Proof.
  intros Hi. apply int_add_small. rewrite int_min_val.
  pose proof int_max_val. lia.
Qed.
End Indices.

(** ** The queue of the host build *)

Section HostQueue.
Context {FSM_Event : Type}.
Variable FIFO_SIZE : Z.
Hypothesis FIFO_SIZE_range : 0 < FIFO_SIZE ≤ INT_MAX.

Implicit Types (q : Event_FIFO FSM_Event) (e event : FSM_Event).
Implicit Types (l : list FSM_Event).

Local Abbreviation write_event := (OverlapTest.write_event FIFO_SIZE).
Local Abbreviation read_event := (OverlapTest.read_event FIFO_SIZE).
Local Abbreviation wf := (fifo_wf FIFO_SIZE).
Local Abbreviation occ := (occupancy FIFO_SIZE).
Local Abbreviation adv := (advance FIFO_SIZE).

Lemma occupancy_cases q :
  wf q →
  occ q = if head q <=? tail q
          then tail q - head q else tail q - head q + FIFO_SIZE.
Proof.
  intros (_ & Hh & Ht). unfold occupancy.
  rewrite (mod_cases FIFO_SIZE) by lia.
  destruct (Z.leb_spec 0 (tail q - head q)), (Z.leb_spec (head q) (tail q)); lia.
Qed.

Lemma occupancy_bound q : wf q → 0 ≤ occ q ≤ FIFO_SIZE - 1.
Proof.
  intros Hq. rewrite (occupancy_cases q Hq). destruct Hq as (_ & Hh & Ht).
  destruct (Z.leb_spec (head q) (tail q)); lia.
Qed.

Lemma empty_occupancy q : wf q → head q = tail q ↔ occ q = 0.
Proof.
  intros Hq. rewrite (occupancy_cases q Hq). destruct Hq as (_ & Hh & Ht).
  destruct (Z.leb_spec (head q) (tail q)); lia.
Qed.

Lemma full_occupancy q : wf q → adv (tail q) = head q ↔ occ q = FIFO_SIZE - 1.
Proof.
  intros Hq. rewrite (occupancy_cases q Hq). destruct Hq as (_ & Hh & Ht).
  rewrite (advance_cases FIFO_SIZE) by lia.
  destruct (Z.leb_spec (head q) (tail q)), (Z.eqb_spec (tail q) (FIFO_SIZE - 1)); lia.
Qed.

(** The condition [write_event] tests is "advancing [tail] meets [head]". *)
Lemma full_test q :
  wf q →
  (int_add (tail q) 1 =? head q)
    || ((int_add (tail q) 1 =? FIFO_SIZE) && (head q =? 0))
  = bool_decide (adv (tail q) = head q).
Proof.
  intros (_ & Hh & Ht).
  rewrite (int_add_index FIFO_SIZE) by lia.
  rewrite (advance_cases FIFO_SIZE) by lia.
  case_bool_decide as Hd;
    destruct (Z.eqb_spec (tail q) (FIFO_SIZE - 1)),
             (Z.eqb_spec (tail q + 1) (head q)),
             (Z.eqb_spec (tail q + 1) FIFO_SIZE),
             (Z.eqb_spec (head q) 0); simpl; try reflexivity; lia.
Qed.

Lemma write_event_full e q :
  wf q → adv (tail q) = head q → write_event e q = Some q.
Proof.
  intros Hq Hfull. unfold OverlapTest.write_event.
  rewrite (full_test q Hq), bool_decide_true by done. reflexivity.
Qed.

Lemma write_event_push e q :
  wf q → adv (tail q) ≠ head q →
  write_event e q = Some (pushed FIFO_SIZE e q).
Proof.
  intros Hq Hfree. unfold OverlapTest.write_event.
  rewrite (full_test q Hq), bool_decide_false by done.
  destruct Hq as (Hlen & Hh & Ht).
  unfold array_store. rewrite bool_decide_true by lia. simpl.
  unfold pushed. rewrite (advance_cases FIFO_SIZE), (int_add_index FIFO_SIZE) by lia.
  reflexivity.
Qed.

Lemma read_event_empty event q :
  head q = tail q → read_event event q = Some (0, event, q).
Proof.
  intros Heq. unfold OverlapTest.read_event.
  rewrite (proj2 (Z.eqb_eq _ _)) by done. reflexivity.
Qed.

Lemma read_event_pop event q :
  wf q → head q ≠ tail q →
  ∃ e, buffer q !! Z.to_nat (head q) = Some e
       ∧ read_event event q = Some (1, e, popped FIFO_SIZE q).
Proof.
  intros (Hlen & Hh & Ht) Hne.
  destruct (lookup_lt_is_Some_2 (buffer q) (Z.to_nat (head q))) as [e He];
    [lia|].
  exists e. split; [done|]. unfold OverlapTest.read_event.
  rewrite (proj2 (Z.eqb_neq _ _)) by done.
  unfold array_load. rewrite bool_decide_true by lia. rewrite He. simpl.
  unfold popped. rewrite (advance_cases FIFO_SIZE), (int_add_index FIFO_SIZE) by lia.
  reflexivity.
Qed.

Lemma pushed_wf e q : wf q → wf (pushed FIFO_SIZE e q).
Proof.
  intros (Hlen & Hh & Ht). unfold fifo_wf, pushed; simpl.
  rewrite length_insert. pose proof (advance_range FIFO_SIZE FIFO_SIZE_range (tail q) Ht).
  done.
Qed.

Lemma popped_wf q : wf q → wf (popped FIFO_SIZE q).
Proof.
  intros (Hlen & Hh & Ht). unfold fifo_wf, popped; simpl.
  pose proof (advance_range FIFO_SIZE FIFO_SIZE_range (head q) Hh). done.
Qed.

Lemma pushed_occupancy e q :
  wf q → occ q < FIFO_SIZE - 1 → occ (pushed FIFO_SIZE e q) = occ q + 1.
Proof.
  intros Hq. pose proof (pushed_wf e q Hq) as Hq'.
  rewrite (occupancy_cases _ Hq'), (occupancy_cases _ Hq).
  destruct Hq as (_ & Hh & Ht). simpl.
  rewrite (advance_cases FIFO_SIZE) by lia.
  destruct (Z.eqb_spec (tail q) (FIFO_SIZE - 1)),
           (Z.leb_spec (head q) (tail q)),
           (Z.leb_spec (head q) 0),
           (Z.leb_spec (head q) (tail q + 1)); lia.
Qed.

Lemma popped_occupancy q :
  wf q → head q ≠ tail q → occ (popped FIFO_SIZE q) = occ q - 1.
Proof.
  intros Hq. pose proof (popped_wf q Hq) as Hq'.
  rewrite (occupancy_cases _ Hq'), (occupancy_cases _ Hq).
  destruct Hq as (_ & Hh & Ht). simpl.
  rewrite (advance_cases FIFO_SIZE) by lia.
  destruct (Z.eqb_spec (head q) (FIFO_SIZE - 1)),
           (Z.leb_spec (head q) (tail q)),
           (Z.leb_spec 0 (tail q)),
           (Z.leb_spec (head q + 1) (tail q)); lia.
Qed.

(** A read and a write that both go through touch different slots and
    different indices, so they commute. *)
Lemma popped_pushed e q :
  popped FIFO_SIZE (pushed FIFO_SIZE e q) = pushed FIFO_SIZE e (popped FIFO_SIZE q).
Proof. reflexivity. Qed.

Lemma pushed_head_slot e q :
  head q ≠ tail q → wf q →
  buffer (pushed FIFO_SIZE e q) !! Z.to_nat (head q)
  = buffer q !! Z.to_nat (head q).
Proof.
  intros Hne (_ & Hh & Ht). simpl. apply list_lookup_insert_ne. lia.
Qed.

(** *** What the consumer is still handed *)

Lemma drain_empty fuel event q :
  head q = tail q → drain read_event fuel event q = [].
Proof.
  intros Heq. destruct fuel as [|fuel]; [done|]. simpl.
  rewrite (read_event_empty event q Heq). reflexivity.
Qed.

Lemma drain_pop fuel event q :
  wf q → head q ≠ tail q →
  ∃ e, buffer q !! Z.to_nat (head q) = Some e
       ∧ drain read_event (S fuel) event q
         = e :: drain read_event fuel e (popped FIFO_SIZE q).
Proof.
  intros Hq Hne. destruct (read_event_pop event q Hq Hne) as (e & He & Hr).
  exists e. split; [done|]. simpl. rewrite Hr. reflexivity.
Qed.

(** Fuel beyond the occupancy, and the initial content of the consumer's
    variable, make no difference. *)
Lemma drain_enough f1 f2 ev1 ev2 q :
  wf q → occ q ≤ Z.of_nat f1 → occ q ≤ Z.of_nat f2 →
  drain read_event f1 ev1 q = drain read_event f2 ev2 q.
Proof.
  revert f2 ev1 ev2 q. induction f1 as [|f1 IH]; intros f2 ev1 ev2 q Hq H1 H2.
  - pose proof (occupancy_bound q Hq).
    assert (head q = tail q) as Heq by (apply empty_occupancy; [done|lia]).
    by rewrite !drain_empty.
  - destruct (decide (head q = tail q)) as [Heq|Hne].
    + by rewrite !drain_empty.
    + assert (occ q ≠ 0) as Hocc by (rewrite <- empty_occupancy; done).
      pose proof (occupancy_bound q Hq).
      destruct f2 as [|f2]; [lia|].
      destruct (drain_pop f1 ev1 q Hq Hne) as (e & He & ->).
      destruct (drain_pop f2 ev2 q Hq Hne) as (e' & He' & ->).
      assert (e' = e) as -> by congruence. f_equal.
      apply IH; [by apply popped_wf | rewrite popped_occupancy by done; lia ..].
Qed.

Lemma drain_length fuel event q :
  wf q → occ q ≤ Z.of_nat fuel →
  Z.of_nat (length (drain read_event fuel event q)) = occ q.
Proof.
  revert event q. induction fuel as [|fuel IH]; intros event q Hq Hf.
  - pose proof (occupancy_bound q Hq). simpl. lia.
  - destruct (decide (head q = tail q)) as [Heq|Hne].
    + rewrite drain_empty by done. symmetry. by apply empty_occupancy.
    + destruct (drain_pop fuel event q Hq Hne) as (e & He & ->).
      simpl length. rewrite Nat2Z.inj_succ, IH.
      * rewrite popped_occupancy by done. lia.
      * by apply popped_wf.
      * rewrite popped_occupancy by done. lia.
Qed.

Lemma drain_pushed fuel event e q :
  wf q → occ q < FIFO_SIZE - 1 → occ q < Z.of_nat fuel →
  drain read_event fuel event (pushed FIFO_SIZE e q)
  = drain read_event fuel event q ++ [e].
Proof.
  revert event q. induction fuel as [|fuel IH]; intros event q Hq Hfree Hf.
  - pose proof (occupancy_bound q Hq). lia.
  - assert (adv (tail q) ≠ head q) as Hnf
      by (rewrite full_occupancy by done; lia).
    pose proof (pushed_wf e q Hq) as Hq'.
    destruct (drain_pop fuel event (pushed FIFO_SIZE e q) Hq') as (e1 & He1 & ->);
      [simpl; congruence|].
    destruct (decide (head q = tail q)) as [Heq|Hne].
    + rewrite (drain_empty _ _ q Heq). simpl app.
      destruct Hq as (Hlen & Hh & Ht).
      simpl in He1. rewrite Heq, list_lookup_insert_eq in He1 by lia.
      injection He1 as <-. f_equal.
      apply drain_empty. simpl. by rewrite Heq.
    + destruct (drain_pop fuel event q Hq Hne) as (e0 & He0 & ->).
      change (head (pushed FIFO_SIZE e q)) with (head q) in He1.
      rewrite pushed_head_slot in He1 by done.
      assert (e1 = e0) as -> by congruence.
      rewrite popped_pushed. simpl app. f_equal.
      apply IH; [by apply popped_wf | rewrite popped_occupancy by done; lia ..].
Qed.

Local Abbreviation live := (OverlapTest.live_entries FIFO_SIZE).

Lemma live_slots q : wf q → occ q < Z.of_nat (length (buffer q)).
Proof.
  intros Hq. pose proof (occupancy_bound q Hq). destruct Hq as (-> & _). lia.
Qed.

Lemma live_length event q : wf q → Z.of_nat (length (live event q)) = occ q.
Proof.
  intros Hq. pose proof (live_slots q Hq). apply drain_length; [done | lia].
Qed.

Lemma live_event event event' q : wf q → live event q = live event' q.
Proof.
  intros Hq. pose proof (live_slots q Hq). apply drain_enough; [done | lia ..].
Qed.

Lemma live_empty event q : head q = tail q → live event q = [].
Proof. apply drain_empty. Qed.

Lemma live_pushed event e q :
  wf q → occ q < FIFO_SIZE - 1 →
  live event (pushed FIFO_SIZE e q) = live event q ++ [e].
Proof.
  intros Hq Hfree. unfold OverlapTest.live_entries.
  replace (length (buffer (pushed FIFO_SIZE e q))) with (length (buffer q))
    by (simpl; by rewrite length_insert).
  apply drain_pushed; [done ..|].
  pose proof (live_slots q Hq). lia.
Qed.

Lemma live_popped event q :
  wf q → head q ≠ tail q →
  ∃ e, buffer q !! Z.to_nat (head q) = Some e
       ∧ live event q = e :: live event (popped FIFO_SIZE q).
Proof.
  intros Hq Hne.
  destruct (drain_pop (length (buffer q)) event q Hq Hne) as (e & He & Hd).
  exists e. split; [done|].
  pose proof (live_slots q Hq) as Hs.
  pose proof (live_slots _ (popped_wf q Hq)) as Hs'.
  unfold OverlapTest.live_entries.
  rewrite (drain_enough _ (S (length (buffer q))) _ event q) by (done || lia).
  rewrite Hd. f_equal. change (buffer (popped FIFO_SIZE q)) with (buffer q) in *.
  apply drain_enough; [by apply popped_wf | lia ..].
Qed.

(** *** One call, seen through the live entries *)

Lemma write_event_live event e q :
  wf q →
  ∃ q', write_event e q = Some q' ∧ wf q'
        ∧ live event q'
          = (if bool_decide (Z.of_nat (length (live event q)) < FIFO_SIZE - 1)
             then live event q ++ [e] else live event q)
        ∧ (Z.of_nat (length (live event q)) = FIFO_SIZE - 1 → q' = q).
Proof.
  intros Hq. rewrite (live_length event q Hq).
  pose proof (occupancy_bound q Hq) as Hb.
  pose proof (full_occupancy q Hq) as Hfull.
  case_bool_decide as Hd.
  - exists (pushed FIFO_SIZE e q).
    split; [apply write_event_push; [done|]; rewrite Hfull; lia|].
    split; [by apply pushed_wf|]. split; [by apply live_pushed | lia].
  - exists q. split; [apply write_event_full; [done|]; rewrite Hfull; lia|].
    done.
Qed.

Lemma read_event_live event q :
  wf q →
  ∃ r event' q', read_event event q = Some (r, event', q') ∧ wf q'
    ∧ match live event q with
      | [] => r = 0 ∧ event' = event ∧ q' = q
      | e :: l => r = 1 ∧ event' = e ∧ live event q' = l
      end.
Proof.
  intros Hq. destruct (decide (head q = tail q)) as [Heq|Hne].
  - exists 0, event, q. rewrite live_empty by done.
    split; [by apply read_event_empty | done].
  - destruct (read_event_pop event q Hq Hne) as (e & He & Hr).
    destruct (live_popped event q Hq Hne) as (e' & He' & ->).
    assert (e' = e) as -> by congruence.
    exists 1, e, (popped FIFO_SIZE q). split; [done|].
    split; [by apply popped_wf | done].
Qed.
End HostQueue.

(** ** The target build against the host build *)

Section TargetQueue.
Context {FSM_Event : Type}.
Variable FIFO_SIZE : Z.

Implicit Types (m : Fifo.Machine FSM_Event) (e event : FSM_Event).

Lemma target_write_event e m :
  Fifo.write_event FIFO_SIZE e m
  = Fifo.mkMachine false <$> OverlapTest.write_event FIFO_SIZE e (Fifo.fifo m).
Proof.
  unfold Fifo.write_event, OverlapTest.write_event. simpl.
  destruct ((int_add (tail (Fifo.fifo m)) 1 =? head (Fifo.fifo m))
            || ((int_add (tail (Fifo.fifo m)) 1 =? FIFO_SIZE)
                && (head (Fifo.fifo m) =? 0))); simpl.
  - by destruct m as [pm [b h t]].
  - by destruct (array_store _ _ _).
Qed.

Lemma target_read_event event m :
  Fifo.read_event FIFO_SIZE event m
  = (λ '(r, event', q), (r, event', Fifo.mkMachine (Fifo.primask m) q))
      <$> OverlapTest.read_event FIFO_SIZE event (Fifo.fifo m).
Proof.
  unfold Fifo.read_event, OverlapTest.read_event.
  destruct (head (Fifo.fifo m) =? tail (Fifo.fifo m)); simpl.
  - by destruct m.
  - by destruct (array_load _ _).
Qed.

Lemma target_drain fuel event m :
  drain (Fifo.read_event FIFO_SIZE) fuel event m
  = drain (OverlapTest.read_event FIFO_SIZE) fuel event (Fifo.fifo m).
Proof.
  revert event m. induction fuel as [|fuel IH]; intros event m; [done|].
  simpl. rewrite target_read_event.
  destruct (OverlapTest.read_event FIFO_SIZE event (Fifo.fifo m))
    as [[[r event'] q]|]; [|done].
  simpl. by rewrite IH.
Qed.

Lemma target_live_entries event m :
  Fifo.live_entries FIFO_SIZE event m
  = OverlapTest.live_entries FIFO_SIZE event (Fifo.fifo m).
Proof. apply target_drain. Qed.

Lemma target_run_view ops event m :
  queue_view
    <$> run (Fifo.write_event FIFO_SIZE) (Fifo.read_event FIFO_SIZE) ops event m
  = run (OverlapTest.write_event FIFO_SIZE) (OverlapTest.read_event FIFO_SIZE)
      ops event (Fifo.fifo m).
Proof.
  revert event m. induction ops as [|[e|] ops IH]; intros event m; simpl.
  - done.
  - rewrite target_write_event.
    destruct (OverlapTest.write_event FIFO_SIZE e (Fifo.fifo m)) as [q|];
      [|done].
    simpl. by rewrite IH.
  - rewrite target_read_event.
    destruct (OverlapTest.read_event FIFO_SIZE event (Fifo.fifo m))
      as [[[r event'] q]|]; [|done].
    simpl. pose proof (IH event' (Fifo.mkMachine (Fifo.primask m) q)) as IH'.
    simpl in IH'. rewrite <- IH'.
    by destruct (run _ _ ops event' _) as [[[out eventf] mf]|].
Qed.
End TargetQueue.

(** ** Sequences of calls *)

Section Runs.
Context {FSM_Event : Type}.
Variable FIFO_SIZE : Z.
Hypothesis FIFO_SIZE_range : 0 < FIFO_SIZE ≤ INT_MAX.

Implicit Types (q : Event_FIFO FSM_Event) (e event : FSM_Event).
Implicit Types (es : list FSM_Event) (ops : list (Op FSM_Event)).

Local Abbreviation host_run :=
  (run (OverlapTest.write_event FIFO_SIZE) (OverlapTest.read_event FIFO_SIZE)).
Local Abbreviation wf := (@fifo_wf FSM_Event FIFO_SIZE).
Local Abbreviation live := (@OverlapTest.live_entries FSM_Event FIFO_SIZE).

Lemma fifo_initial_wf event_zero :
  wf (fifo_initial FIFO_SIZE event_zero).
Proof. unfold fifo_wf, fifo_initial. simpl. rewrite length_replicate. lia. Qed.

Lemma fifo_initial_live event event_zero :
  live event (fifo_initial FIFO_SIZE event_zero) = [].
Proof. by apply live_empty. Qed.

(** Every sequence of calls on a well-formed queue runs through, and
    leaves a well-formed queue. *)
Lemma host_run_wf ops event q :
  wf q → ∃ out event' q', host_run ops event q = Some (out, event', q') ∧ wf q'.
Proof.
  revert event q. induction ops as [|[e|] ops IH]; intros event q Hq; simpl.
  - by exists [], event, q.
  - destruct (write_event_live FIFO_SIZE FIFO_SIZE_range event e q Hq)
      as (q1 & -> & Hq1 & _).
    simpl. by apply IH.
  - destruct (read_event_live FIFO_SIZE FIFO_SIZE_range event q Hq)
      as (r & event1 & q1 & -> & Hq1 & _).
    simpl. destruct (IH event1 q1 Hq1) as (out & event' & q' & -> & Hq').
    simpl. by eexists _, _, _.
Qed.

Lemma host_run_app ops1 ops2 event q out1 event1 q1 :
  host_run ops1 event q = Some (out1, event1, q1) →
  host_run (ops1 ++ ops2) event q
  = '(out2, event2, q2) ← host_run ops2 event1 q1;
    Some (out1 ++ out2, event2, q2).
Proof.
  revert event q out1. induction ops1 as [|[e|] ops1 IH];
    intros event q out1 Hrun; simpl in *.
  - injection Hrun as <- <- <-.
    by destruct (host_run ops2 event q) as [[[out2 event2] q2]|].
  - destruct (OverlapTest.write_event FIFO_SIZE e q) as [q'|]; [|done].
    simpl in *. by apply IH.
  - destruct (OverlapTest.read_event FIFO_SIZE event q)
      as [[[r event'] q']|]; [|done].
    simpl in *.
    destruct (host_run ops1 event' q') as [[[out eventf] qf]|] eqn:Hrest;
      [|done].
    simpl in Hrun. injection Hrun as <- <- <-.
    rewrite (IH _ _ _ Hrest).
    by destruct (host_run ops2 eventf qf) as [[[out2 event2] q2]|].
Qed.

(** Writes into free room append to the live entries. *)
Lemma host_run_writes es event q :
  wf q →
  Z.of_nat (length (live event q)) + Z.of_nat (length es) ≤ FIFO_SIZE - 1 →
  ∃ q', host_run (Write <$> es) event q = Some ([], event, q') ∧ wf q'
        ∧ live event q' = live event q ++ es.
Proof.
  revert q. induction es as [|e es IH]; intros q Hq Hroom; csimpl in *.
  - exists q. by rewrite app_nil_r.
  - destruct (write_event_live FIFO_SIZE FIFO_SIZE_range event e q Hq)
      as (q1 & -> & Hq1 & Hlive & _).
    rewrite bool_decide_true in Hlive by lia. csimpl.
    destruct (IH q1 Hq1) as (q' & -> & Hq' & Hlive').
    + rewrite Hlive, length_app. simpl. lia.
    + exists q'. split; [done|]. split; [done|].
      by rewrite Hlive', Hlive, <- app_assoc.
Qed.

Lemma last_cons_default e es event :
  List.last (e :: es) event = List.last es e.
Proof.
  revert e event. induction es as [|e' es IH]; intros e event; [done|].
  change (List.last (e :: e' :: es) event) with (List.last (e' :: es) event).
  by rewrite !IH.
Qed.

(** Reads hand the live entries out from the front. *)
Lemma host_run_reads es rest event q :
  wf q → live event q = es ++ rest →
  ∃ q', host_run (replicate (length es) Read) event q
        = Some ((λ e, (1, e)) <$> es, List.last es event, q')
        ∧ wf q' ∧ live event q' = rest.
Proof.
  revert event q. induction es as [|e es IH]; intros event q Hq Hlive; csimpl in *.
  - by exists q.
  - destruct (read_event_live FIFO_SIZE FIFO_SIZE_range event q Hq)
      as (r & event1 & q1 & -> & Hq1 & Hstep).
    rewrite Hlive in Hstep. destruct Hstep as (-> & -> & Hlive1). csimpl.
    rewrite (live_event FIFO_SIZE FIFO_SIZE_range event e q1 Hq1) in Hlive1.
    destruct (IH e q1 Hq1 Hlive1) as (q' & -> & Hq' & Hrest). csimpl.
    exists q'. split.
    + do 3 f_equal. symmetry. apply (last_cons_default e es event).
    + split; [done|].
      by rewrite (live_event FIFO_SIZE FIFO_SIZE_range event e q' Hq').
Qed.
End Runs.

(** ** Properties of the event queue *)

Section QueueProperties.
Context {FSM_Event : Type}.
Variable FIFO_SIZE : Z.
Hypothesis FIFO_SIZE_range : 0 < FIFO_SIZE ≤ INT_MAX.

Implicit Types (m : Fifo.Machine FSM_Event) (q : Event_FIFO FSM_Event).
Implicit Types (e event event_zero : FSM_Event).
Implicit Types (es : list FSM_Event) (ops : list (Op FSM_Event)).

Local Abbreviation host_run :=
  (run (OverlapTest.write_event FIFO_SIZE) (OverlapTest.read_event FIFO_SIZE)).
Local Abbreviation target_run :=
  (run (Fifo.write_event FIFO_SIZE) (Fifo.read_event FIFO_SIZE)).

Lemma target_run_of_host ops event m out event' q' :
  host_run ops event (Fifo.fifo m) = Some (out, event', q') →
  ∃ m', target_run ops event m = Some (out, event', m') ∧ Fifo.fifo m' = q'.
Proof.
  rewrite <- target_run_view.
  destruct (target_run ops event m) as [[[out1 event1] m1]|]; [|done].
  simpl. intros [= <- <- <-]. by exists m1.
Qed.

Lemma target_run_wf ops event m :
  fifo_wf FIFO_SIZE (Fifo.fifo m) →
  ∃ out event' m', target_run ops event m = Some (out, event', m')
                   ∧ fifo_wf FIFO_SIZE (Fifo.fifo m').
Proof.
  intros Hm.
  destruct (host_run_wf FIFO_SIZE FIFO_SIZE_range ops event _ Hm)
    as (out & event' & q' & Hrun & Hq').
  destruct (target_run_of_host _ _ _ _ _ _ Hrun) as (m' & Hrun' & <-).
  by exists out, event', m'.
Qed.

(** C1.  Whatever calls the producer and the consumer have made on the
    initially empty queue, they all ran through, and in the state they
    left: no live entry remains iff [head == tail]; the queue holds
    [FIFO_SIZE - 1] live entries iff advancing [tail] by one with
    wraparound gives [head]; it never holds more than [FIFO_SIZE - 1];
    and the number of live entries is the distance from [head] to [tail]
    round the array, dropped writes included. *)
Theorem queue_invariants event_zero ops event m0 :
  Fifo.fifo m0 = fifo_initial FIFO_SIZE event_zero →
  ∃ out event' m,
    target_run ops event m0 = Some (out, event', m)
    ∧ let q := Fifo.fifo m in
      let n := Z.of_nat (length (Fifo.live_entries FIFO_SIZE event_zero m)) in
      (n = 0 ↔ head q = tail q)
      ∧ (n = FIFO_SIZE - 1 ↔ advance FIFO_SIZE (tail q) = head q)
      ∧ n ≤ FIFO_SIZE - 1
      ∧ n = occupancy FIFO_SIZE q.
Proof.
  intros Hinit.
  destruct (target_run_wf ops event m0) as (out & event' & m & Hrun & Hm).
  { rewrite Hinit. by apply fifo_initial_wf. }
  exists out, event', m. split; [done|]. cbv zeta.
  rewrite target_live_entries, (live_length FIFO_SIZE) by done.
  pose proof (empty_occupancy FIFO_SIZE FIFO_SIZE_range _ Hm).
  pose proof (full_occupancy FIFO_SIZE FIFO_SIZE_range _ Hm).
  pose proof (occupancy_bound FIFO_SIZE FIFO_SIZE_range _ Hm).
  intuition lia.
Qed.

(** C2.  On a queue that holds [FIFO_SIZE - 1] live entries,
    [write_event] returns normally with buffer, head and tail as they
    were; the live entries are the same, and so is everything any later
    sequence of calls reads or leaves in the queue. *)
Theorem write_event_full_drops e event m :
  fifo_wf FIFO_SIZE (Fifo.fifo m) →
  Z.of_nat (length (Fifo.live_entries FIFO_SIZE event m)) = FIFO_SIZE - 1 →
  ∃ m',
    Fifo.write_event FIFO_SIZE e m = Some m'
    ∧ Fifo.fifo m' = Fifo.fifo m
    ∧ Fifo.live_entries FIFO_SIZE event m' = Fifo.live_entries FIFO_SIZE event m
    ∧ ∀ ops event1,
        queue_view <$> target_run ops event1 m'
        = queue_view <$> target_run ops event1 m.
Proof.
  intros Hm Hfull. rewrite target_live_entries in Hfull.
  destruct (write_event_live FIFO_SIZE FIFO_SIZE_range event e _ Hm)
    as (q' & Hw & _ & _ & Hsame).
  specialize (Hsame Hfull). subst q'.
  exists (Fifo.mkMachine false (Fifo.fifo m)).
  rewrite target_write_event, Hw. split; [done|]. split; [done|].
  split; [by rewrite !target_live_entries|].
  intros ops event1. by rewrite !target_run_view.
Qed.

(** C3.  Fewer than [FIFO_SIZE] events written to the initially empty
    queue and then read back: every read returns 1, the events come out
    in the order they went in, and the queue is empty again.  Both
    builds. *)
Theorem fifo_round_trip event_zero es event m0 :
  Z.of_nat (length es) < FIFO_SIZE →
  Fifo.fifo m0 = fifo_initial FIFO_SIZE event_zero →
  let ops := (Write <$> es) ++ replicate (length es) Read in
  let results := (λ e, (1, e)) <$> es in
  (∃ m, target_run ops event m0 = Some (results, List.last es event, m)
        ∧ head (Fifo.fifo m) = tail (Fifo.fifo m))
  ∧ (∃ q, host_run ops event (fifo_initial FIFO_SIZE event_zero)
          = Some (results, List.last es event, q)
          ∧ head q = tail q).
Proof.
  intros Hlen Hinit ops results.
  assert (∃ q, host_run ops event (fifo_initial FIFO_SIZE event_zero)
               = Some (results, List.last es event, q)
               ∧ head q = tail q) as Hhost.
  { pose proof (fifo_initial_wf FIFO_SIZE FIFO_SIZE_range event_zero) as H0.
    destruct (host_run_writes FIFO_SIZE FIFO_SIZE_range es event _ H0)
      as (q1 & Hw & Hq1 & Hlive1).
    { rewrite fifo_initial_live. simpl. lia. }
    rewrite fifo_initial_live in Hlive1. simpl in Hlive1.
    destruct (host_run_reads FIFO_SIZE FIFO_SIZE_range es [] event q1 Hq1)
      as (q2 & Hr & Hq2 & Hlive2); [by rewrite app_nil_r|].
    exists q2. unfold ops.
    rewrite (host_run_app FIFO_SIZE _ _ _ _ _ _ _ Hw), Hr. split; [done|].
    apply (empty_occupancy FIFO_SIZE FIFO_SIZE_range q2 Hq2).
    rewrite <- (live_length FIFO_SIZE FIFO_SIZE_range event q2 Hq2), Hlive2.
    done. }
  split; [|done].
  destruct Hhost as (q & Hrun & Hempty). rewrite <- Hinit in Hrun.
  destruct (target_run_of_host _ _ _ _ _ _ Hrun) as (m & Hrun' & <-).
  by exists m.
Qed.

(** C4.  On every state and event, the queue that the interrupt-guarded
    [write_event] leaves is the queue that the host build's [write_event]
    leaves; the two differ in the interrupt mask alone. *)
Theorem write_event_variants_agree e m :
  Fifo.fifo <$> Fifo.write_event FIFO_SIZE e m
  = OverlapTest.write_event FIFO_SIZE e (Fifo.fifo m).
Proof.
  rewrite target_write_event.
  by destruct (OverlapTest.write_event FIFO_SIZE e (Fifo.fifo m)).
Qed.

(** C7.  On a well-formed queue [read_event] returns 0 exactly when
    [head == tail], and then changes nothing; otherwise it returns 1,
    stores the event of the slot at [head] in the caller's location and
    advances [head] by one with wraparound at [FIFO_SIZE], leaving the
    buffer and [tail] alone. *)
Theorem read_event_result event m :
  fifo_wf FIFO_SIZE (Fifo.fifo m) →
  ∃ r event' m',
    Fifo.read_event FIFO_SIZE event m = Some (r, event', m')
    ∧ (r = 0 ↔ head (Fifo.fifo m) = tail (Fifo.fifo m))
    ∧ (r = 0 → event' = event ∧ m' = m)
    ∧ (r ≠ 0 →
       r = 1
       ∧ buffer (Fifo.fifo m) !! Z.to_nat (head (Fifo.fifo m)) = Some event'
       ∧ head (Fifo.fifo m') = advance FIFO_SIZE (head (Fifo.fifo m))
       ∧ head (Fifo.fifo m')
         = (if head (Fifo.fifo m) =? FIFO_SIZE - 1
            then 0 else head (Fifo.fifo m) + 1)
       ∧ tail (Fifo.fifo m') = tail (Fifo.fifo m)
       ∧ buffer (Fifo.fifo m') = buffer (Fifo.fifo m)
       ∧ Fifo.primask m' = Fifo.primask m).
Proof.
  intros Hm. rewrite target_read_event.
  destruct (decide (head (Fifo.fifo m) = tail (Fifo.fifo m))) as [Heq|Hne].
  - rewrite (read_event_empty FIFO_SIZE event _ Heq). simpl.
    exists 0, event, (Fifo.mkMachine (Fifo.primask m) (Fifo.fifo m)).
    split; [done|]. split; [done|]. split; [|done].
    intros _. by destruct m.
  - destruct (read_event_pop FIFO_SIZE FIFO_SIZE_range event _ Hm Hne)
      as (e & He & ->). simpl.
    eexists 1, e, _. split; [done|]. split; [split; [done | by intros []%Hne]|].
    split; [done|]. intros _. simpl.
    destruct Hm as (_ & Hh & _).
    by rewrite <- (advance_cases FIFO_SIZE FIFO_SIZE_range) by done.
Qed.

(** C9.  Whatever calls have been made on the initially empty queue, in
    either build, none of them indexed [fifo.buffer] outside the array
    (the run is defined), and [head] and [tail] lie in [0, FIFO_SIZE). *)
Theorem indices_stay_in_bounds event_zero ops event m0 :
  Fifo.fifo m0 = fifo_initial FIFO_SIZE event_zero →
  (∃ out event' m,
     target_run ops event m0 = Some (out, event', m)
     ∧ 0 ≤ head (Fifo.fifo m) < FIFO_SIZE
     ∧ 0 ≤ tail (Fifo.fifo m) < FIFO_SIZE
     ∧ Z.of_nat (length (buffer (Fifo.fifo m))) = FIFO_SIZE)
  ∧ (∃ out event' q,
       host_run ops event (fifo_initial FIFO_SIZE event_zero)
       = Some (out, event', q)
       ∧ 0 ≤ head q < FIFO_SIZE
       ∧ 0 ≤ tail q < FIFO_SIZE
       ∧ Z.of_nat (length (buffer q)) = FIFO_SIZE).
Proof.
  intros Hinit.
  pose proof (fifo_initial_wf FIFO_SIZE FIFO_SIZE_range event_zero) as H0.
  split.
  - destruct (target_run_wf ops event m0) as (out & event' & m & Hrun & Hm);
      [by rewrite Hinit|].
    exists out, event', m. destruct Hm as (Hlen & Hh & Ht).
    rewrite Hlen. split; [done|]. repeat split; lia.
  - destruct (host_run_wf FIFO_SIZE FIFO_SIZE_range ops event _ H0)
      as (out & event' & q & Hrun & Hq).
    exists out, event', q. destruct Hq as (Hlen & Hh & Ht).
    rewrite Hlen. split; [done|]. repeat split; lia.
Qed.
End QueueProperties.

(** C10.  With [head == tail], [read_event] returns 0 and the caller's
    location holds what it held before the call; the queue is untouched.
    Both builds. *)
Theorem read_event_empty_keeps_output {FSM_Event : Type} (FIFO_SIZE : Z)
    (event : FSM_Event) (m : Fifo.Machine FSM_Event) (q : Event_FIFO FSM_Event) :
  head (Fifo.fifo m) = tail (Fifo.fifo m) →
  head q = tail q →
  Fifo.read_event FIFO_SIZE event m = Some (0, event, m)
  ∧ OverlapTest.read_event FIFO_SIZE event q = Some (0, event, q).
Proof.
  intros Hm Hq. split.
  - unfold Fifo.read_event. by rewrite (proj2 (Z.eqb_eq _ _) Hm).
  - by apply read_event_empty.
Qed.

(** ** Properties of the timer service *)

Section TimerProperties.
Import UserTimers.

Implicit Types (p : Peripherals) (i : TIM_Instance) (r : TIM_TypeDef).
Implicit Types (h : TIM_HandleTypeDef) (w : World) (timer : Timer).

Lemma regs_set_regs i r p : regs (set_regs i r p) i = r.
Proof. by destruct i. Qed.

Lemma set_regs_set_regs i r r' p :
  set_regs i r (set_regs i r' p) = set_regs i r p.
Proof. by destruct i. Qed.

Lemma set_regs_same i p : set_regs i (regs p i) p = p.
Proof. by destruct i, p. Qed.

Lemma start_hal_timer_regs h ms p :
  start_hal_timer h ms p
  = set_regs (Instance h)
      (mkTIM true true false (CNT (regs p (Instance h)))
         (Prescaler (Init h)) (to_uint32 (int_mul 10 ms))) p.
Proof.
  unfold start_hal_timer, start_hal_timer_steps, HAL_TIM_Base_Start_IT,
    __HAL_TIM_CLEAR_IT, HAL_TIM_Base_Init. simpl.
  by rewrite !regs_set_regs, !set_regs_set_regs.
Qed.

Lemma stop_hal_timer_regs h p :
  stop_hal_timer h p
  = set_regs (Instance h)
      (mkTIM false false (SR_UIF (regs p (Instance h))) 0
         (PSC (regs p (Instance h))) (ARR (regs p (Instance h)))) p.
Proof.
  unfold stop_hal_timer, __HAL_TIM_SET_COUNTER, HAL_TIM_Base_Stop_IT. simpl.
  by rewrite !regs_set_regs, !set_regs_set_regs.
Qed.

Lemma to_uint32_int_wrap z : to_uint32 (int_wrap z) = z mod 2 ^ 32.
Proof.
  unfold to_uint32, int_wrap. rewrite Zminus_mod_idemp_l. f_equal. lia.
Qed.

Lemma period_in_range ms :
  0 ≤ ms → 10 * ms < 2 ^ 32 → to_uint32 (int_mul 10 ms) = 10 * ms.
Proof.
  intros Hms Hmax. unfold int_mul. rewrite to_uint32_int_wrap.
  apply Z.mod_small. lia.
Qed.

Lemma valid_channel_handle timer w :
  valid_channel timer → ∃ h, handle_of timer w = Some h.
Proof. destruct timer; intros Hv; by eauto. Qed.

Lemma start_timer_timers timer ms w h :
  handle_of timer w = Some h →
  start_timer timer ms w
  = mkWorld (htim1 w) (htim2 w) (htim3 w) (start_hal_timer h ms (timers w)).
Proof. by destruct timer; intros [= <-]. Qed.

Lemma stop_timer_timers timer w h :
  handle_of timer w = Some h →
  stop_timer timer w
  = mkWorld (htim1 w) (htim2 w) (htim3 w) (stop_hal_timer h (timers w)).
Proof. by destruct timer; intros [= <-]. Qed.

Lemma handle_of_frame timer w p :
  handle_of timer (mkWorld (htim1 w) (htim2 w) (htim3 w) p) = handle_of timer w.
Proof. by destruct timer. Qed.

(** C5, as amended.  For a valid channel and a duration [ms] whose
    tenfold fits the 32-bit period, [start_timer] leaves the block bound
    to the channel with period [10 * ms], no elapse pending, and the
    countdown and its interrupt enabled, and leaves the handles as they
    were.  It gets there in three steps: the first two leave the countdown
    and its interrupt as they found them; after the second the period is
    programmed and no elapse is pending; the third is the one that starts
    the countdown. *)
Theorem start_timer_programs_period timer ms w :
  valid_channel timer → 0 ≤ ms → 10 * ms < 2 ^ 32 →
  ∃ h, handle_of timer w = Some h
    ∧ let w' := start_timer timer ms w in
      let r := regs (timers w) (Instance h) in
      let r' := regs (timers w') (Instance h) in
      ARR r' = 10 * ms
      ∧ SR_UIF r' = false
      ∧ CR1_CEN r' = true
      ∧ DIER_UIE r' = true
      ∧ handle_of timer w' = Some h
      ∧ ∃ p1 p2,
          start_hal_timer_steps h ms (timers w) = [p1; p2; timers w']
          ∧ CR1_CEN (regs p1 (Instance h)) = CR1_CEN r
          ∧ DIER_UIE (regs p1 (Instance h)) = DIER_UIE r
          ∧ CR1_CEN (regs p2 (Instance h)) = CR1_CEN r
          ∧ DIER_UIE (regs p2 (Instance h)) = DIER_UIE r
          ∧ SR_UIF (regs p2 (Instance h)) = false
          ∧ ARR (regs p2 (Instance h)) = 10 * ms.
Proof.
  intros Hv Hms Hmax. destruct (valid_channel_handle timer w Hv) as [h Hh].
  exists h. split; [done|]. cbv zeta.
  rewrite (start_timer_timers timer ms w h Hh). simpl timers.
  rewrite handle_of_frame.
  rewrite start_hal_timer_regs, regs_set_regs, period_in_range by done.
  simpl. repeat (split; [done|]).
  unfold start_hal_timer_steps. rewrite period_in_range by done.
  eexists _, _. split.
  - do 2 f_equal. f_equal.
    unfold HAL_TIM_Base_Start_IT, __HAL_TIM_CLEAR_IT, HAL_TIM_Base_Init. simpl.
    by rewrite !regs_set_regs, !set_regs_set_regs.
  - unfold __HAL_TIM_CLEAR_IT, HAL_TIM_Base_Init. simpl.
    by rewrite !regs_set_regs.
Qed.

(** C8.  For a valid channel, [stop_timer] leaves the block bound to the
    channel halted with its counter at zero; on a block already at rest
    it changes nothing; and stopping twice is stopping once. *)
Theorem stop_timer_idempotent timer w :
  valid_channel timer →
  ∃ h, handle_of timer w = Some h
    ∧ timer_stopped (regs (timers (stop_timer timer w)) (Instance h))
    ∧ (timer_stopped (regs (timers w) (Instance h)) → stop_timer timer w = w)
    ∧ stop_timer timer (stop_timer timer w) = stop_timer timer w.
Proof.
  intros Hv. destruct (valid_channel_handle timer w Hv) as [h Hh].
  exists h. split; [done|].
  rewrite (stop_timer_timers timer w h Hh).
  rewrite (stop_timer_timers timer _ h) by (by rewrite handle_of_frame).
  simpl. rewrite !stop_hal_timer_regs, !regs_set_regs, set_regs_set_regs. simpl.
  split; [done|]. split; [|done].
  intros (Hcen & Huie & Hcnt).
  destruct (regs (timers w) (Instance h)) as [cen uie uif cnt psc arr] eqn:Hr.
  simpl in *. subst cen uie cnt. rewrite <- Hr, set_regs_same. by destruct w.
Qed.
End TimerProperties.

(** C5 as stated fails: neither [int] nor the 32-bit period can hold ten
    times every duration.  At 500000000 ms the product 5000000000 wraps and
    the period programmed for TIMER_1 is 705032704; a negative [ms] such as
    -1 gives the period 4294967286. *)
Lemma start_timer_period_wraps :
  UserTimers.valid_channel UserTimers.TIMER_1
  ∧ UserTimers.ARR <$>
      UserTimers.channel_regs UserTimers.TIMER_1
        (UserTimers.start_timer UserTimers.TIMER_1 500000000 example_world)
    = Some 705032704
  ∧ UserTimers.ARR <$>
      UserTimers.channel_regs UserTimers.TIMER_1
        (UserTimers.start_timer UserTimers.TIMER_1 500000000 example_world)
    ≠ Some (10 * 500000000)
  ∧ UserTimers.ARR <$>
      UserTimers.channel_regs UserTimers.TIMER_1
        (UserTimers.start_timer UserTimers.TIMER_1 (-1) example_world)
    = Some 4294967286.
Proof. split; [done|]. repeat split; by vm_compute. Qed.

(** ** Properties of the FSM2 machine *)

Section Fsm2Properties.
Import UserTimers FSM2.
Context {User : Type}.
Variable state_S03 : User → User.
Variable state_S04 : User → User.

Implicit Types (m : Fsm User) (w : World) (u : User).

Local Abbreviation dispatch := (FSM2.dispatch state_S03 state_S04).
Local Abbreviation restart := restart_timer2.

Lemma dispatch_S03 m :
  current_state m = FSM2_S03 →
  dispatch TIMER_2_EVENT m
  = mkFsm FSM2_S04 (restart (world m)) (state_S04 (user m)).
Proof. unfold FSM2.dispatch. by intros ->. Qed.

Lemma dispatch_S04 m :
  current_state m = FSM2_S04 →
  dispatch TIMER_2_EVENT m
  = mkFsm FSM2_S03 (restart (world m)) (state_S03 (user m)).
Proof. unfold FSM2.dispatch. by intros ->. Qed.

Lemma restart_regs w :
  restart w
  = mkWorld (htim1 w) (htim2 w) (htim3 w)
      (set_regs (Instance (htim2 w))
         (mkTIM true true false 0 (Prescaler (Init (htim2 w))) 5000)
         (timers w)).
Proof.
  unfold restart_timer2. simpl. unfold on_timers. simpl.
  by rewrite start_hal_timer_regs, stop_hal_timer_regs, regs_set_regs,
    set_regs_set_regs.
Qed.

Lemma restart_armed w :
  timer_armed 5000 (regs (timers (restart w)) (Instance (htim2 (restart w)))).
Proof. rewrite restart_regs. simpl. by rewrite regs_set_regs. Qed.

Lemma restart_restart w : restart (restart w) = restart w.
Proof.
  rewrite (restart_regs (restart w)), !restart_regs. simpl.
  by rewrite set_regs_set_regs.
Qed.

(** After at least one elapse event the world is the one the first
    reaction left, and the active state follows the parity. *)
Lemma dispatch_iter w u n :
  let m := Nat.iter (S n) (dispatch TIMER_2_EVENT) (initial w u) in
  current_state m = (if Nat.even (S n) then FSM2_S03 else FSM2_S04)
  ∧ world m = restart w.
Proof.
  induction n as [|n [IHs IHw]].
  - cbv zeta.
    change (Nat.iter 1 (dispatch TIMER_2_EVENT) (initial w u))
      with (dispatch TIMER_2_EVENT (initial w u)).
    by rewrite (dispatch_S03 (initial w u)).
  - cbv zeta.
    change (Nat.iter (S (S n)) (dispatch TIMER_2_EVENT) (initial w u))
      with (dispatch TIMER_2_EVENT
              (Nat.iter (S n) (dispatch TIMER_2_EVENT) (initial w u))).
    cbv zeta in IHs, IHw.
    change (Nat.even (S (S n))) with (Nat.even n).
    rewrite Nat.even_succ, <- Nat.negb_even in IHs.
    destruct (Nat.even n).
    + rewrite dispatch_S04 by done. cbn [current_state world].
      by rewrite IHw, restart_restart.
    + rewrite dispatch_S03 by done. cbn [current_state world].
      by rewrite IHw, restart_restart.
Qed.

(** C6.  From FSM2_S03 the TIMER_2 event stops TIMER_2, makes FSM2_S04
    the active state and starts TIMER_2 for 500 ms (period 5000); from
    FSM2_S04 it does the same towards FSM2_S03.  Started in FSM2_S03, the
    machine is in FSM2_S03 after an even number of elapse events and in
    FSM2_S04 after an odd number, with TIMER_2 armed for 500 ms after
    each, and from the first event on two more events lead back to the
    same active state and the same world. *)
Theorem fsm2_oscillates w u :
  initial_state = FSM2_S03
  ∧ (∀ m, current_state m = FSM2_S03 →
       let m' := dispatch TIMER_2_EVENT m in
       current_state m' = FSM2_S04
       ∧ world m' = start_timer TIMER_2 500 (stop_timer TIMER_2 (world m))
       ∧ timer_armed 5000
           (regs (timers (world m')) (Instance (htim2 (world m')))))
  ∧ (∀ m, current_state m = FSM2_S04 →
       let m' := dispatch TIMER_2_EVENT m in
       current_state m' = FSM2_S03
       ∧ world m' = start_timer TIMER_2 500 (stop_timer TIMER_2 (world m))
       ∧ timer_armed 5000
           (regs (timers (world m')) (Instance (htim2 (world m')))))
  ∧ (∀ n,
       let m := Nat.iter n (dispatch TIMER_2_EVENT) (initial w u) in
       current_state m = (if Nat.even n then FSM2_S03 else FSM2_S04)
       ∧ ((0 < n)%nat →
          timer_armed 5000
            (regs (timers (world m)) (Instance (htim2 (world m))))))
  ∧ (∀ n, (0 < n)%nat →
       let m := Nat.iter n (dispatch TIMER_2_EVENT) (initial w u) in
       let m2 := Nat.iter (n + 2) (dispatch TIMER_2_EVENT) (initial w u) in
       current_state m2 = current_state m ∧ world m2 = world m).
Proof.
  split; [done|].
  split; [intros m Hm; cbv zeta; rewrite dispatch_S03 by done; simpl;
          split; [done|]; split; [done|]; apply restart_armed|].
  split; [intros m Hm; cbv zeta; rewrite dispatch_S04 by done; simpl;
          split; [done|]; split; [done|]; apply restart_armed|].
  split.
  - intros [|n]; cbv zeta; [split; [done | lia]|].
    destruct (dispatch_iter w u n) as [Hs Hw]. cbv zeta in Hs, Hw.
    split; [done|]. intros _. rewrite Hw. apply restart_armed.
  - intros [|n] Hn; [lia|]. cbv zeta.
    replace (S n + 2)%nat with (S (S (S n))) by lia.
    destruct (dispatch_iter w u n) as [Hs Hw].
    destruct (dispatch_iter w u (S (S n))) as [Hs2 Hw2].
    cbv zeta in *. rewrite Hs, Hs2, Hw, Hw2. done.
Qed.
End Fsm2Properties.

(** ** The properties at concrete inputs *)

Example example_run :
  run (Fifo.write_event 4) (Fifo.read_event 4) example_ops
    TIMER_3_EVENT_INDEX example_empty
  = Some ([(1, TIMER_1_EVENT_INDEX); (1, TIMER_2_EVENT_INDEX);
           (1, TIMER_3_EVENT_INDEX)],
          TIMER_3_EVENT_INDEX,
          Fifo.mkMachine false
            (mkFifo
               [TIMER_1_EVENT_INDEX; TIMER_2_EVENT_INDEX; TIMER_3_EVENT_INDEX;
                TIMER_1_EVENT_INDEX]
               3 0)).
Proof. reflexivity. Qed.

Example example_full_live :
  Fifo.live_entries 4 TIMER_1_EVENT_INDEX example_full
  = [TIMER_2_EVENT_INDEX; TIMER_1_EVENT_INDEX; TIMER_3_EVENT_INDEX].
Proof. reflexivity. Qed.

Lemma queue_invariants_witness :
  0 < 4 ≤ INT_MAX
  ∧ Fifo.fifo example_empty = fifo_initial 4 TIMER_1_EVENT_INDEX
  ∧ ∃ out event' m,
      run (Fifo.write_event 4) (Fifo.read_event 4) example_ops
        TIMER_3_EVENT_INDEX example_empty
      = Some (out, event', m)
      ∧ let q := Fifo.fifo m in
        let n := Z.of_nat (length (Fifo.live_entries 4 TIMER_1_EVENT_INDEX m)) in
        (n = 0 ↔ head q = tail q)
        ∧ (n = 4 - 1 ↔ advance 4 (tail q) = head q)
        ∧ n ≤ 4 - 1
        ∧ n = occupancy 4 q.
Proof.
  assert (0 < 4 ≤ INT_MAX) as Hrange by (rewrite int_max_val; lia).
  split; [exact Hrange|]. split; [reflexivity|].
  apply (queue_invariants 4 Hrange TIMER_1_EVENT_INDEX example_ops
           TIMER_3_EVENT_INDEX example_empty).
  reflexivity.
Defined.

Lemma write_event_full_drops_witness :
  0 < 4 ≤ INT_MAX
  ∧ fifo_wf 4 (Fifo.fifo example_full)
  ∧ Z.of_nat (length (Fifo.live_entries 4 TIMER_1_EVENT_INDEX example_full))
    = 4 - 1
  ∧ ∃ m',
      Fifo.write_event 4 TIMER_2_EVENT_INDEX example_full = Some m'
      ∧ Fifo.fifo m' = Fifo.fifo example_full
      ∧ Fifo.live_entries 4 TIMER_1_EVENT_INDEX m'
        = Fifo.live_entries 4 TIMER_1_EVENT_INDEX example_full
      ∧ ∀ ops event1,
          queue_view
            <$> run (Fifo.write_event 4) (Fifo.read_event 4) ops event1 m'
          = queue_view
            <$> run (Fifo.write_event 4) (Fifo.read_event 4) ops event1
                  example_full.
Proof.
  assert (0 < 4 ≤ INT_MAX) as Hrange by (rewrite int_max_val; lia).
  assert (fifo_wf 4 (Fifo.fifo example_full)) as Hwf
    by (unfold fifo_wf; simpl; lia).
  split; [exact Hrange|]. split; [exact Hwf|]. split; [reflexivity|].
  apply (write_event_full_drops 4 Hrange TIMER_2_EVENT_INDEX
           TIMER_1_EVENT_INDEX example_full Hwf).
  reflexivity.
Defined.

Lemma fifo_round_trip_witness :
  0 < 4 ≤ INT_MAX
  ∧ Z.of_nat
      (length [TIMER_2_EVENT_INDEX; TIMER_3_EVENT_INDEX; TIMER_2_EVENT_INDEX])
    < 4
  ∧ Fifo.fifo example_empty = fifo_initial 4 TIMER_1_EVENT_INDEX
  ∧ let es := [TIMER_2_EVENT_INDEX; TIMER_3_EVENT_INDEX; TIMER_2_EVENT_INDEX] in
    let ops := (Write <$> es) ++ replicate (length es) Read in
    let results := (λ e, (1, e)) <$> es in
    (∃ m, run (Fifo.write_event 4) (Fifo.read_event 4) ops
            TIMER_1_EVENT_INDEX example_empty
          = Some (results, List.last es TIMER_1_EVENT_INDEX, m)
          ∧ head (Fifo.fifo m) = tail (Fifo.fifo m))
    ∧ (∃ q, run (OverlapTest.write_event 4) (OverlapTest.read_event 4) ops
              TIMER_1_EVENT_INDEX (fifo_initial 4 TIMER_1_EVENT_INDEX)
            = Some (results, List.last es TIMER_1_EVENT_INDEX, q)
            ∧ head q = tail q).
Proof.
  assert (0 < 4 ≤ INT_MAX) as Hrange by (rewrite int_max_val; lia).
  split; [exact Hrange|]. split; [simpl; lia|]. split; [reflexivity|].
  apply (fifo_round_trip 4 Hrange TIMER_1_EVENT_INDEX
           [TIMER_2_EVENT_INDEX; TIMER_3_EVENT_INDEX; TIMER_2_EVENT_INDEX]
           TIMER_1_EVENT_INDEX example_empty).
  - simpl; lia.
  - reflexivity.
Defined.

Lemma read_event_result_witness :
  0 < 4 ≤ INT_MAX
  ∧ fifo_wf 4 (Fifo.fifo example_full)
  ∧ ∃ r event' m',
      Fifo.read_event 4 TIMER_1_EVENT_INDEX example_full = Some (r, event', m')
      ∧ (r = 0 ↔ head (Fifo.fifo example_full) = tail (Fifo.fifo example_full))
      ∧ (r ≠ 0 →
         r = 1
         ∧ buffer (Fifo.fifo example_full)
             !! Z.to_nat (head (Fifo.fifo example_full)) = Some event'
         ∧ head (Fifo.fifo m') = advance 4 (head (Fifo.fifo example_full))).
Proof.
  assert (0 < 4 ≤ INT_MAX) as Hrange by (rewrite int_max_val; lia).
  assert (fifo_wf 4 (Fifo.fifo example_full)) as Hwf
    by (unfold fifo_wf; simpl; lia).
  split; [exact Hrange|]. split; [exact Hwf|].
  destruct (read_event_result 4 Hrange TIMER_1_EVENT_INDEX example_full Hwf)
    as (r & event' & m' & Hread & Hzero & _ & Hpop).
  exists r, event', m'. split; [exact Hread|]. split; [exact Hzero|].
  intros Hr. destruct (Hpop Hr) as (H1 & Hslot & Hadv & _).
  split; [exact H1|]. split; [exact Hslot | exact Hadv].
Defined.

Lemma indices_stay_in_bounds_witness :
  0 < 4 ≤ INT_MAX
  ∧ Fifo.fifo example_empty = fifo_initial 4 TIMER_1_EVENT_INDEX
  ∧ (∃ out event' m,
       run (Fifo.write_event 4) (Fifo.read_event 4) example_ops
         TIMER_3_EVENT_INDEX example_empty
       = Some (out, event', m)
       ∧ 0 ≤ head (Fifo.fifo m) < 4
       ∧ 0 ≤ tail (Fifo.fifo m) < 4
       ∧ Z.of_nat (length (buffer (Fifo.fifo m))) = 4)
  ∧ (∃ out event' q,
       run (OverlapTest.write_event 4) (OverlapTest.read_event 4) example_ops
         TIMER_3_EVENT_INDEX (fifo_initial 4 TIMER_1_EVENT_INDEX)
       = Some (out, event', q)
       ∧ 0 ≤ head q < 4
       ∧ 0 ≤ tail q < 4
       ∧ Z.of_nat (length (buffer q)) = 4).
Proof.
  assert (0 < 4 ≤ INT_MAX) as Hrange by (rewrite int_max_val; lia).
  split; [exact Hrange|]. split; [reflexivity|].
  apply (indices_stay_in_bounds 4 Hrange TIMER_1_EVENT_INDEX example_ops
           TIMER_3_EVENT_INDEX example_empty).
  reflexivity.
Defined.

Lemma read_event_empty_keeps_output_witness :
  head (Fifo.fifo example_empty) = tail (Fifo.fifo example_empty)
  ∧ head (fifo_initial 4 TIMER_1_EVENT_INDEX)
    = tail (fifo_initial 4 TIMER_1_EVENT_INDEX)
  ∧ Fifo.read_event 4 TIMER_3_EVENT_INDEX example_empty
    = Some (0, TIMER_3_EVENT_INDEX, example_empty)
  ∧ OverlapTest.read_event 4 TIMER_3_EVENT_INDEX
      (fifo_initial 4 TIMER_1_EVENT_INDEX)
    = Some (0, TIMER_3_EVENT_INDEX, fifo_initial 4 TIMER_1_EVENT_INDEX).
Proof.
  split; [reflexivity|]. split; [reflexivity|].
  apply (read_event_empty_keeps_output 4 TIMER_3_EVENT_INDEX example_empty
           (fifo_initial 4 TIMER_1_EVENT_INDEX)); reflexivity.
Defined.

Lemma start_timer_programs_period_witness :
  UserTimers.valid_channel UserTimers.TIMER_2
  ∧ 0 ≤ 500
  ∧ 10 * 500 < 2 ^ 32
  ∧ ∃ h, UserTimers.handle_of UserTimers.TIMER_2 example_world = Some h
      ∧ let w' := UserTimers.start_timer UserTimers.TIMER_2 500 example_world in
        let r :=
          UserTimers.regs (UserTimers.timers example_world)
            (UserTimers.Instance h) in
        let r' := UserTimers.regs (UserTimers.timers w') (UserTimers.Instance h) in
        UserTimers.ARR r' = 10 * 500
        ∧ UserTimers.SR_UIF r' = false
        ∧ UserTimers.CR1_CEN r' = true
        ∧ UserTimers.DIER_UIE r' = true
        ∧ UserTimers.handle_of UserTimers.TIMER_2 w' = Some h
        ∧ ∃ p1 p2,
            UserTimers.start_hal_timer_steps h 500
              (UserTimers.timers example_world)
            = [p1; p2; UserTimers.timers w']
            ∧ UserTimers.CR1_CEN (UserTimers.regs p1 (UserTimers.Instance h))
              = UserTimers.CR1_CEN r
            ∧ UserTimers.DIER_UIE (UserTimers.regs p1 (UserTimers.Instance h))
              = UserTimers.DIER_UIE r
            ∧ UserTimers.CR1_CEN (UserTimers.regs p2 (UserTimers.Instance h))
              = UserTimers.CR1_CEN r
            ∧ UserTimers.DIER_UIE (UserTimers.regs p2 (UserTimers.Instance h))
              = UserTimers.DIER_UIE r
            ∧ UserTimers.SR_UIF (UserTimers.regs p2 (UserTimers.Instance h))
              = false
            ∧ UserTimers.ARR (UserTimers.regs p2 (UserTimers.Instance h))
              = 10 * 500.
Proof.
  assert (UserTimers.valid_channel UserTimers.TIMER_2) as Hv by (intros [=]).
  split; [exact Hv|]. split; [lia|]. split; [lia|].
  apply (start_timer_programs_period UserTimers.TIMER_2 500 example_world Hv);
    lia.
Defined.

Lemma stop_timer_idempotent_witness :
  UserTimers.valid_channel UserTimers.TIMER_2
  ∧ ∃ h, UserTimers.handle_of UserTimers.TIMER_2 example_world = Some h
      ∧ timer_stopped
          (UserTimers.regs
             (UserTimers.timers
                (UserTimers.stop_timer UserTimers.TIMER_2 example_world))
             (UserTimers.Instance h))
      ∧ UserTimers.stop_timer UserTimers.TIMER_2
          (UserTimers.stop_timer UserTimers.TIMER_2 example_world)
        = UserTimers.stop_timer UserTimers.TIMER_2 example_world.
Proof.
  assert (UserTimers.valid_channel UserTimers.TIMER_2) as Hv by (intros [=]).
  split; [exact Hv|].
  destruct (stop_timer_idempotent UserTimers.TIMER_2 example_world Hv)
    as (h & Hh & Hstopped & _ & Hidem).
  exists h. split; [exact Hh|]. split; [exact Hstopped | exact Hidem].
Defined.

Lemma fsm2_oscillates_witness :
  let step := FSM2.dispatch S S FSM2.TIMER_2_EVENT in
  let m3 := Nat.iter 3 step (FSM2.initial example_world O) in
  FSM2.current_state m3 = FSM2.FSM2_S04
  ∧ timer_armed 5000
      (UserTimers.regs (UserTimers.timers (FSM2.world m3))
         (UserTimers.Instance (UserTimers.htim2 (FSM2.world m3)))).
Proof.
  destruct (fsm2_oscillates S S example_world O) as (_ & _ & _ & Hn & _).
  destruct (Hn 3%nat) as [Hstate Harmed].
  split; [exact Hstate | apply Harmed; lia].
Defined.

(** ** Further properties of the event queue *)

Section QueueFurther.
Context {FSM_Event : Type}.
Variable FIFO_SIZE : Z.
Hypothesis FIFO_SIZE_range : 0 < FIFO_SIZE ≤ INT_MAX.

Implicit Types (m : Fifo.Machine FSM_Event) (q : Event_FIFO FSM_Event).
Implicit Types (e event slot : FSM_Event).
Implicit Types (es : list FSM_Event) (ops : list (Op FSM_Event)).

Local Abbreviation host_run :=
  (run (OverlapTest.write_event FIFO_SIZE) (OverlapTest.read_event FIFO_SIZE)).
Local Abbreviation target_run :=
  (run (Fifo.write_event FIFO_SIZE) (Fifo.read_event FIFO_SIZE)).
Local Abbreviation wf := (@fifo_wf FSM_Event FIFO_SIZE).
Local Abbreviation live := (@OverlapTest.live_entries FSM_Event FIFO_SIZE).

Lemma live_bound slot q :
  wf q → Z.of_nat (length (live slot q)) ≤ FIFO_SIZE - 1.
Proof.
  intros Hq. rewrite (live_length FIFO_SIZE FIFO_SIZE_range slot q Hq).
  apply (occupancy_bound FIFO_SIZE FIFO_SIZE_range q Hq).
Qed.

(** Step by step, the host build does to the live entries what the
    specification's queue does to its list. *)
Lemma host_run_spec slot ops event q :
  wf q →
  ∃ out event' q',
    host_run ops event q = Some (out, event', q') ∧ wf q'
    ∧ spec_queue_run FIFO_SIZE ops event (live slot q)
      = (out, event', live slot q').
Proof.
  revert event q. induction ops as [|[e|] ops IH]; intros event q Hq.
  - by exists [], event, q.
  - destruct (write_event_live FIFO_SIZE FIFO_SIZE_range slot e q Hq)
      as (q1 & Hw & Hq1 & Hlive & _).
    destruct (IH event q1 Hq1) as (out & event' & q' & Hrun & Hq' & Hspec).
    exists out, event', q'. simpl. rewrite Hw. simpl.
    split; [done|]. split; [done|]. by rewrite <- Hlive.
  - destruct (read_event_live FIFO_SIZE FIFO_SIZE_range event q Hq)
      as (r & event1 & q1 & Hr & Hq1 & Hstep).
    rewrite (live_event FIFO_SIZE FIFO_SIZE_range event slot q Hq) in Hstep.
    simpl. rewrite Hr. simpl.
    destruct (live slot q) as [|e l] eqn:Hl.
    + destruct Hstep as (-> & -> & ->).
      destruct (IH event q Hq) as (out & event' & q' & -> & Hq' & Hspec).
      rewrite Hl in Hspec. rewrite Hspec. simpl. by eexists _, _, _.
    + destruct Hstep as (-> & -> & Hl1).
      rewrite (live_event FIFO_SIZE FIFO_SIZE_range event slot q1 Hq1) in Hl1.
      destruct (IH e q1 Hq1) as (out & event' & q' & -> & Hq' & Hspec).
      rewrite Hl1 in Hspec. rewrite Hspec. simpl. by eexists _, _, _.
Qed.

Lemma host_run_overflow slot es event q :
  wf q →
  ∃ q', host_run (Write <$> es) event q = Some ([], event, q') ∧ wf q'
        ∧ live slot q'
          = take (Z.to_nat (FIFO_SIZE - 1)) (live slot q ++ es).
Proof.
  revert q. induction es as [|e es IH]; intros q Hq; csimpl.
  - exists q. split; [done|]. split; [done|].
    pose proof (live_bound slot q Hq).
    rewrite app_nil_r, take_ge by lia. done.
  - destruct (write_event_live FIFO_SIZE FIFO_SIZE_range slot e q Hq)
      as (q1 & -> & Hq1 & Hlive & _).
    csimpl. destruct (IH q1 Hq1) as (q' & -> & Hq' & Hlive').
    exists q'. split; [done|]. split; [done|].
    rewrite Hlive', Hlive. pose proof (live_bound slot q Hq).
    case_bool_decide.
    + by rewrite <- app_assoc.
    + rewrite !take_app_le by lia. done.
Qed.

(** X1.  From any well-formed queue, whatever the calls, both builds
    hand out exactly what the specification's queue hands out, leave the
    consumer's variable as it does, and end with its list as their live
    entries. *)
Theorem queue_refines_spec slot ops event m :
  fifo_wf FIFO_SIZE (Fifo.fifo m) →
  ∃ out event' m',
    target_run ops event m = Some (out, event', m')
    ∧ host_run ops event (Fifo.fifo m) = Some (out, event', Fifo.fifo m')
    ∧ spec_queue_run FIFO_SIZE ops event (Fifo.live_entries FIFO_SIZE slot m)
      = (out, event', Fifo.live_entries FIFO_SIZE slot m').
Proof.
  intros Hm.
  destruct (host_run_spec slot ops event _ Hm)
    as (out & event' & q' & Hrun & _ & Hspec).
  destruct (target_run_of_host FIFO_SIZE _ _ _ _ _ _ Hrun) as (m' & Hrun' & <-).
  exists out, event', m'. by rewrite !target_live_entries.
Qed.

(** X2.  Writes alone, however many: the queue keeps the oldest entries up
    to [FIFO_SIZE - 1] and drops every later one. *)
Theorem overflow_keeps_oldest slot es event m :
  fifo_wf FIFO_SIZE (Fifo.fifo m) →
  ∃ m',
    target_run (Write <$> es) event m = Some ([], event, m')
    ∧ Fifo.live_entries FIFO_SIZE slot m'
      = take (Z.to_nat (FIFO_SIZE - 1))
          (Fifo.live_entries FIFO_SIZE slot m ++ es).
Proof.
  intros Hm.
  destruct (host_run_overflow slot es event _ Hm) as (q' & Hrun & _ & Hlive).
  destruct (target_run_of_host FIFO_SIZE _ _ _ _ _ _ Hrun) as (m' & Hrun' & <-).
  exists m'. by rewrite !target_live_entries.
Qed.
End QueueFurther.

Section QueueFrames.
Context {FSM_Event : Type}.
Variable FIFO_SIZE : Z.

Implicit Types (m : Fifo.Machine FSM_Event) (e event : FSM_Event).
Implicit Types (ops : list (Op FSM_Event)).

Local Abbreviation target_run :=
  (run (Fifo.write_event FIFO_SIZE) (Fifo.read_event FIFO_SIZE)).

Lemma write_event_mask e m m' :
  Fifo.write_event FIFO_SIZE e m = Some m' → Fifo.primask m' = false.
Proof.
  rewrite target_write_event.
  destruct (OverlapTest.write_event FIFO_SIZE e (Fifo.fifo m)); [|done].
  by intros [= <-].
Qed.

Lemma read_event_mask event m r event' m' :
  Fifo.read_event FIFO_SIZE event m = Some (r, event', m') →
  Fifo.primask m' = Fifo.primask m.
Proof.
  rewrite target_read_event.
  destruct (OverlapTest.read_event FIFO_SIZE event (Fifo.fifo m))
    as [[[r1 event1] q1]|]; [|done].
  by intros [= <- <- <-].
Qed.

(** X3.  The producer and the consumer keep to their own parts of the
    queue, in whatever state it is: a [write_event] that returns leaves
    [head], the size of the array and every slot but the one at [tail] as
    they were; a [read_event] that returns leaves [tail], the array and the
    interrupt mask as they were. *)
Theorem producer_consumer_frame e event m mw r event' mr :
  Fifo.write_event FIFO_SIZE e m = Some mw →
  Fifo.read_event FIFO_SIZE event m = Some (r, event', mr) →
  (head (Fifo.fifo mw) = head (Fifo.fifo m)
   ∧ length (buffer (Fifo.fifo mw)) = length (buffer (Fifo.fifo m))
   ∧ ∀ i : nat, i ≠ Z.to_nat (tail (Fifo.fifo m)) →
       buffer (Fifo.fifo mw) !! i = buffer (Fifo.fifo m) !! i)
  ∧ (tail (Fifo.fifo mr) = tail (Fifo.fifo m)
     ∧ buffer (Fifo.fifo mr) = buffer (Fifo.fifo m)
     ∧ Fifo.primask mr = Fifo.primask m).
Proof.
  intros Hw Hr. split.
  - rewrite target_write_event in Hw. unfold OverlapTest.write_event in Hw.
    destruct ((int_add (tail (Fifo.fifo m)) 1 =? head (Fifo.fifo m))
              || ((int_add (tail (Fifo.fifo m)) 1 =? FIFO_SIZE)
                  && (head (Fifo.fifo m) =? 0))).
    + simpl in Hw. by injection Hw as <-.
    + unfold array_store in Hw. case_bool_decide; [|done].
      simpl in Hw. injection Hw as <-. simpl.
      split; [done|]. split; [by rewrite length_insert|].
      intros i Hi. by apply list_lookup_insert_ne.
  - rewrite target_read_event in Hr. unfold OverlapTest.read_event in Hr.
    destruct (head (Fifo.fifo m) =? tail (Fifo.fifo m)).
    + simpl in Hr. by injection Hr as <- <- <-.
    + destruct (array_load _ _); [|done].
      simpl in Hr. by injection Hr as <- <- <-.
Qed.

(** X4.  [write_event] does not restore the interrupt mask it found: once
    a run has made a [write_event] call, interrupts are enabled at its
    end, whatever the mask was at the start; a run of reads alone leaves
    the mask as it was. *)
Theorem run_interrupt_mask ops event m out event' m' :
  target_run ops event m = Some (out, event', m') →
  Fifo.primask m' = if existsb is_write ops then false else Fifo.primask m.
Proof.
  revert event m out. induction ops as [|[e|] ops IH]; intros event m out Hrun;
    simpl in Hrun.
  - by injection Hrun as <- <- <-.
  - destruct (Fifo.write_event FIFO_SIZE e m) as [m1|] eqn:Hw; [|done].
    simpl in Hrun. rewrite (IH _ _ _ Hrun), (write_event_mask _ _ _ Hw).
    simpl. by destruct (existsb is_write ops).
  - destruct (Fifo.read_event FIFO_SIZE event m) as [[[r event1] m1]|] eqn:Hr;
      [|done].
    simpl in Hrun.
    destruct (target_run ops event1 m1) as [[[out1 eventf] mf]|] eqn:Hrest;
      [|done].
    simpl in Hrun. injection Hrun as <- <- <-.
    rewrite (IH _ _ _ Hrest), (read_event_mask _ _ _ _ _ Hr). done.
Qed.

(** X5.  What the host build is seen to do, the target build does: on
    every state and every sequence of calls the two return the same read
    results, leave the same content in the consumer's variable and the
    same queue, and one is undefined exactly when the other is. *)
Theorem builds_agree_on_runs ops event m :
  queue_view <$> target_run ops event m
  = run (OverlapTest.write_event FIFO_SIZE) (OverlapTest.read_event FIFO_SIZE)
      ops event (Fifo.fifo m).
Proof. apply target_run_view. Qed.
End QueueFrames.

(** ** Further properties of the timer service *)

Section TimerFurther.
Import UserTimers.

Implicit Types (p : Peripherals) (i j : TIM_Instance) (r : TIM_TypeDef).
Implicit Types (h : TIM_HandleTypeDef) (w : World) (timer : Timer).

Lemma regs_set_regs_ne i j r p : i ≠ j → regs (set_regs i r p) j = regs p j.
Proof. by destruct i, j. Qed.

Lemma start_timer_handles timer ms w :
  htim1 (start_timer timer ms w) = htim1 w
  ∧ htim2 (start_timer timer ms w) = htim2 w
  ∧ htim3 (start_timer timer ms w) = htim3 w.
Proof. by destruct timer. Qed.

Lemma stop_timer_handles timer w :
  htim1 (stop_timer timer w) = htim1 w
  ∧ htim2 (stop_timer timer w) = htim2 w
  ∧ htim3 (stop_timer timer w) = htim3 w.
Proof. by destruct timer. Qed.

Lemma start_timer_other timer ms w i :
  (∀ h, handle_of timer w = Some h → Instance h ≠ i) →
  regs (timers (start_timer timer ms w)) i = regs (timers w) i.
Proof.
  intros Hother. destruct (handle_of timer w) as [h|] eqn:Hh.
  - rewrite (start_timer_timers timer ms w h Hh). simpl.
    rewrite start_hal_timer_regs. apply regs_set_regs_ne. by apply Hother.
  - by destruct timer.
Qed.

Lemma stop_timer_other timer w i :
  (∀ h, handle_of timer w = Some h → Instance h ≠ i) →
  regs (timers (stop_timer timer w)) i = regs (timers w) i.
Proof.
  intros Hother. destruct (handle_of timer w) as [h|] eqn:Hh.
  - rewrite (stop_timer_timers timer w h Hh). simpl.
    rewrite stop_hal_timer_regs. apply regs_set_regs_ne. by apply Hother.
  - by destruct timer.
Qed.

(** X6.  [start_timer] and [stop_timer] touch one timer block at most: a
    block that is not the one the channel's handle points to keeps all its
    registers (for [NUM_TIMERS], every block does), and the three handles
    are never written: the duration goes into the callee's copy of the
    handle, not into [htim1], [htim2] or [htim3]. *)
Theorem timer_service_frame timer ms w i :
  (∀ h, handle_of timer w = Some h → Instance h ≠ i) →
  regs (timers (start_timer timer ms w)) i = regs (timers w) i
  ∧ regs (timers (stop_timer timer w)) i = regs (timers w) i
  ∧ htim1 (start_timer timer ms w) = htim1 w
  ∧ htim2 (start_timer timer ms w) = htim2 w
  ∧ htim3 (start_timer timer ms w) = htim3 w
  ∧ htim1 (stop_timer timer w) = htim1 w
  ∧ htim2 (stop_timer timer w) = htim2 w
  ∧ htim3 (stop_timer timer w) = htim3 w.
Proof.
  intros Hother.
  split; [by apply start_timer_other|]. split; [by apply stop_timer_other|].
  destruct (start_timer_handles timer ms w) as (-> & -> & ->).
  by destruct (stop_timer_handles timer w) as (-> & -> & ->).
Qed.

(** X7.  Starting a channel that was started before is a restart: the
    world is the one the second [start_timer] alone would have left, so a
    repeated start with the same duration changes nothing. *)
Theorem start_timer_restarts timer ms1 ms2 w :
  start_timer timer ms2 (start_timer timer ms1 w) = start_timer timer ms2 w.
Proof.
  destruct (handle_of timer w) as [h|] eqn:Hh.
  - rewrite (start_timer_timers timer ms1 w h Hh).
    rewrite (start_timer_timers timer ms2 w h Hh).
    rewrite (start_timer_timers timer ms2 _ h) by (by rewrite handle_of_frame).
    simpl. by rewrite !start_hal_timer_regs, regs_set_regs, set_regs_set_regs.
  - by destruct timer.
Qed.

(** X8.  A negative duration is not refused.  When its tenfold still fits
    an [int], the conversion to the unsigned period wraps: the block is
    started with period [2 ^ 32 + 10 * ms]. *)
Theorem start_timer_negative_duration timer ms w :
  valid_channel timer → ms < 0 → INT_MIN ≤ 10 * ms →
  ∃ h, handle_of timer w = Some h
    ∧ let r' := regs (timers (start_timer timer ms w)) (Instance h) in
      ARR r' = 2 ^ 32 + 10 * ms
      ∧ CR1_CEN r' = true
      ∧ DIER_UIE r' = true.
Proof.
  intros Hv Hneg Hmin. destruct (valid_channel_handle timer w Hv) as [h Hh].
  exists h. split; [done|]. cbv zeta.
  rewrite (start_timer_timers timer ms w h Hh). simpl timers.
  rewrite start_hal_timer_regs, regs_set_regs. simpl.
  split; [|done]. unfold to_uint32, int_mul.
  rewrite int_wrap_small by (rewrite int_max_val; lia).
  rewrite int_min_val in Hmin.
  symmetry. apply (Z.mod_unique _ _ (-1)); lia.
Qed.
End TimerFurther.

(** ** Properties of the elapse callback *)

Section ElapseCallback.
Import UserTimers.
Variable FIFO_SIZE : Z.
Hypothesis FIFO_SIZE_range : 0 < FIFO_SIZE ≤ INT_MAX.

Implicit Types (i j : TIM_Instance) (b : Elapsed_Instance).
Implicit Types (bs : list Elapsed_Instance).
Implicit Types (m : Fifo.Machine LiveDemo_Event) (event slot : LiveDemo_Event).

Local Abbreviation target_run :=
  (run (Fifo.write_event FIFO_SIZE) (Fifo.read_event FIFO_SIZE)).

Lemma callback_writes i m :
  HAL_TIM_PeriodElapsedCallback FIFO_SIZE (At_block i) m
  = Fifo.write_event FIFO_SIZE (elapse_event i) m.
Proof. by destruct i. Qed.

Lemma elapse_event_inj i j : elapse_event i = elapse_event j → i = j.
Proof. by destruct i, j. Qed.

(** The callback for a block of the timer service, on a well-formed
    queue. *)
Lemma callback_block slot i m :
  fifo_wf FIFO_SIZE (Fifo.fifo m) →
  ∃ m', HAL_TIM_PeriodElapsedCallback FIFO_SIZE (At_block i) m = Some m'
        ∧ fifo_wf FIFO_SIZE (Fifo.fifo m')
        ∧ Fifo.primask m' = false
        ∧ (if bool_decide
                (Z.of_nat (length (Fifo.live_entries FIFO_SIZE slot m))
                 < FIFO_SIZE - 1)
           then Fifo.live_entries FIFO_SIZE slot m'
                = Fifo.live_entries FIFO_SIZE slot m ++ [elapse_event i]
           else Fifo.fifo m' = Fifo.fifo m).
Proof.
  intros Hm. rewrite callback_writes, target_write_event.
  destruct (write_event_live FIFO_SIZE FIFO_SIZE_range slot
              (elapse_event i) _ Hm) as (q' & -> & Hq' & Hlive & Hfull).
  exists (Fifo.mkMachine false q'). rewrite !target_live_entries.
  split; [done|]. split; [done|]. split; [done|].
  pose proof (live_bound FIFO_SIZE FIFO_SIZE_range slot _ Hm).
  case_bool_decide; [done|]. simpl. apply Hfull. lia.
Qed.

Lemma elapse_all_live slot bs m :
  fifo_wf FIFO_SIZE (Fifo.fifo m) →
  Z.of_nat (length (Fifo.live_entries FIFO_SIZE slot m))
    + Z.of_nat (length (omap bound_event bs)) ≤ FIFO_SIZE - 1 →
  ∃ m', elapse_all FIFO_SIZE bs m = Some m'
        ∧ fifo_wf FIFO_SIZE (Fifo.fifo m')
        ∧ Fifo.live_entries FIFO_SIZE slot m'
          = Fifo.live_entries FIFO_SIZE slot m ++ omap bound_event bs.
Proof.
  revert m. induction bs as [|[i|] bs IH]; intros m Hm Hroom.
  - exists m. by rewrite app_nil_r.
  - change (omap bound_event (At_block i :: bs))
      with (elapse_event i :: omap bound_event bs) in *.
    change (elapse_all FIFO_SIZE (At_block i :: bs) m)
      with (HAL_TIM_PeriodElapsedCallback FIFO_SIZE (At_block i) m
              ≫= elapse_all FIFO_SIZE bs).
    simpl length in Hroom.
    destruct (callback_block slot i m Hm) as (m1 & -> & Hm1 & _ & Hlive).
    rewrite bool_decide_true in Hlive by lia. simpl.
    destruct (IH m1 Hm1) as (m' & -> & Hm' & Hlive').
    + rewrite Hlive, length_app. simpl. lia.
    + exists m'. split; [done|]. split; [done|].
      by rewrite Hlive', Hlive, <- app_assoc.
  - change (omap bound_event (At_other :: bs)) with (omap bound_event bs) in *.
    change (elapse_all FIFO_SIZE (At_other :: bs) m)
      with (elapse_all FIFO_SIZE bs m).
    by apply IH.
Qed.

(** X9.  One elapse.  For a block of the timer service, on a well-formed
    queue, the callback returns with interrupts enabled; it has added the
    event index of the block behind the live entries when fewer than
    [FIFO_SIZE - 1] were held, and has left buffer, head and tail as they
    were otherwise.  For any other block it returns with queue and
    interrupt mask untouched.  Different blocks of the timer service stand
    for different event indices. *)
Theorem elapse_callback_enqueues slot b m :
  fifo_wf FIFO_SIZE (Fifo.fifo m) →
  (∃ m', HAL_TIM_PeriodElapsedCallback FIFO_SIZE b m = Some m'
         ∧ match b with
           | At_block i =>
               Fifo.primask m' = false
               ∧ (if bool_decide
                       (Z.of_nat (length (Fifo.live_entries FIFO_SIZE slot m))
                        < FIFO_SIZE - 1)
                  then Fifo.live_entries FIFO_SIZE slot m'
                       = Fifo.live_entries FIFO_SIZE slot m ++ [elapse_event i]
                  else Fifo.fifo m' = Fifo.fifo m)
           | At_other => m' = m
           end)
  ∧ (∀ i j, elapse_event i = elapse_event j → i = j).
Proof.
  intros Hm. split; [|apply elapse_event_inj].
  destruct b as [i|].
  - destruct (callback_block slot i m Hm) as (m' & Hcall & _ & Hmask & Hlive).
    by exists m'.
  - by exists m.
Qed.

(** X10.  Timers that elapse before the main loop drains the queue are
    delivered in the order they elapsed.  Let the callback run, on the
    initially empty queue, for any sequence of blocks of which fewer than
    [FIFO_SIZE] are blocks of the timer service; the others enqueue
    nothing.  Then as many reads as there were elapses of blocks of the
    timer service return 1 with their event indices, in that order, and
    leave the queue empty. *)
Theorem elapses_delivered_in_order event_zero bs event m0 :
  Z.of_nat (length (omap bound_event bs)) < FIFO_SIZE →
  Fifo.fifo m0 = fifo_initial FIFO_SIZE event_zero →
  ∃ m m',
    elapse_all FIFO_SIZE bs m0 = Some m
    ∧ target_run (replicate (length (omap bound_event bs)) Read) event m
      = Some ((λ e, (1, e)) <$> omap bound_event bs,
              List.last (omap bound_event bs) event,
              m')
    ∧ head (Fifo.fifo m') = tail (Fifo.fifo m').
Proof.
  intros Hlen Hinit.
  assert (fifo_wf FIFO_SIZE (Fifo.fifo m0)) as Hm0
    by (rewrite Hinit; by apply fifo_initial_wf).
  assert (Fifo.live_entries FIFO_SIZE event m0 = []) as Hempty
    by (rewrite target_live_entries, Hinit; by apply fifo_initial_live).
  destruct (elapse_all_live event bs m0 Hm0) as (m & Hall & Hm & Hlive).
  { rewrite Hempty. simpl. lia. }
  rewrite Hempty, target_live_entries in Hlive. simpl in Hlive.
  destruct (host_run_reads FIFO_SIZE FIFO_SIZE_range
              (omap bound_event bs) [] event _ Hm)
    as (q' & Hreads & Hq' & Hrest); [by rewrite app_nil_r|].
  destruct (target_run_of_host FIFO_SIZE _ _ _ _ _ _ Hreads)
    as (m' & Hreads' & <-).
  exists m, m'. split; [done|]. split; [done|].
  apply (empty_occupancy FIFO_SIZE FIFO_SIZE_range _ Hq').
  rewrite <- (live_length FIFO_SIZE FIFO_SIZE_range event _ Hq'), Hrest. done.
Qed.
End ElapseCallback.

(** ** Further properties of the FSM2 machine *)

Section Fsm2Further.
Import UserTimers FSM2.
Context {User : Type}.
Variable state_S03 : User → User.
Variable state_S04 : User → User.

Implicit Types (m : Fsm User) (w : World) (u : User).

Local Abbreviation dispatch := (FSM2.dispatch state_S03 state_S04).

Lemma dispatch_pair m :
  current_state m = FSM2_S03 →
  let m2 := dispatch TIMER_2_EVENT (dispatch TIMER_2_EVENT m) in
  current_state m2 = FSM2_S03
  ∧ user m2 = state_S03 (state_S04 (user m)).
Proof.
  intros Hm. cbv zeta. rewrite (dispatch_S03 _ _ m Hm).
  by rewrite dispatch_S04.
Qed.

Lemma dispatch_even w u k :
  let m := Nat.iter (2 * k) (dispatch TIMER_2_EVENT) (initial w u) in
  current_state m = FSM2_S03
  ∧ user m = Nat.iter k (λ x, state_S03 (state_S04 x)) u.
Proof.
  induction k as [|k [IHs IHu]]; [done|]. cbv zeta in *.
  replace (2 * S k)%nat with (S (S (2 * k))) by lia.
  rewrite !Nat.iter_succ.
  destruct (dispatch_pair _ IHs) as [Hs Hu]. cbv zeta in Hs, Hu.
  by rewrite Hs, Hu, IHu.
Qed.

(** X11.  Each elapse event runs exactly one entry action, and the two
    alternate: started in FSM2_S03, after [2 * k] TIMER_2 events the
    user's state is [k] rounds of [state_S04] then [state_S03], and one
    more event adds [state_S04]. *)
Theorem fsm2_hooks_alternate w u k :
  let step := dispatch TIMER_2_EVENT in
  let round := λ x, state_S03 (state_S04 x) in
  user (Nat.iter (2 * k) step (initial w u)) = Nat.iter k round u
  ∧ user (Nat.iter (2 * k + 1) step (initial w u))
    = state_S04 (Nat.iter k round u).
Proof.
  cbv zeta. destruct (dispatch_even w u k) as [Hs Hu]. cbv zeta in Hs, Hu.
  split; [done|].
  replace (2 * k + 1)%nat with (S (2 * k)) by lia.
  rewrite Nat.iter_succ, (dispatch_S03 _ _ _ Hs). cbn [user]. by rewrite Hu.
Qed.

(** X12.  FSM2 drives TIMER_2 and nothing else: however many TIMER_2
    events are dispatched, a timer block other than the one [htim2] points
    to keeps its registers, and the three handles stay as they were. *)
Theorem fsm2_drives_only_timer2 w u n i :
  i ≠ Instance (htim2 w) →
  let m := Nat.iter n (dispatch TIMER_2_EVENT) (initial w u) in
  regs (timers (world m)) i = regs (timers w) i
  ∧ htim1 (world m) = htim1 w
  ∧ htim2 (world m) = htim2 w
  ∧ htim3 (world m) = htim3 w.
Proof.
  intros Hi. destruct n as [|n]; [done|].
  destruct (dispatch_iter state_S03 state_S04 w u n) as [_ Hw].
  cbv zeta in *. rewrite Hw, restart_regs. simpl.
  split; [|done]. apply regs_set_regs_ne. congruence.
Qed.
End Fsm2Further.

(** ** The further properties at concrete inputs *)

Lemma queue_refines_spec_witness :
  0 < 4 ≤ INT_MAX
  ∧ fifo_wf 4 (Fifo.fifo example_full)
  ∧ ∃ out event' m',
      run (Fifo.write_event 4) (Fifo.read_event 4) example_ops
        TIMER_3_EVENT_INDEX example_full
      = Some (out, event', m')
      ∧ run (OverlapTest.write_event 4) (OverlapTest.read_event 4) example_ops
          TIMER_3_EVENT_INDEX (Fifo.fifo example_full)
        = Some (out, event', Fifo.fifo m')
      ∧ spec_queue_run 4 example_ops TIMER_3_EVENT_INDEX
          (Fifo.live_entries 4 TIMER_1_EVENT_INDEX example_full)
        = (out, event', Fifo.live_entries 4 TIMER_1_EVENT_INDEX m').
Proof.
  assert (0 < 4 ≤ INT_MAX) as Hrange by (rewrite int_max_val; lia).
  assert (fifo_wf 4 (Fifo.fifo example_full)) as Hwf
    by (unfold fifo_wf; simpl; lia).
  split; [exact Hrange|]. split; [exact Hwf|].
  apply (queue_refines_spec 4 Hrange TIMER_1_EVENT_INDEX example_ops
           TIMER_3_EVENT_INDEX example_full Hwf).
Defined.

Lemma overflow_keeps_oldest_witness :
  0 < 4 ≤ INT_MAX
  ∧ fifo_wf 4 (Fifo.fifo example_empty)
  ∧ ∃ m',
      run (Fifo.write_event 4) (Fifo.read_event 4)
        (Write <$> [TIMER_2_EVENT_INDEX; TIMER_3_EVENT_INDEX;
                    TIMER_1_EVENT_INDEX; TIMER_2_EVENT_INDEX;
                    TIMER_3_EVENT_INDEX])
        TIMER_1_EVENT_INDEX example_empty
      = Some ([], TIMER_1_EVENT_INDEX, m')
      ∧ Fifo.live_entries 4 TIMER_1_EVENT_INDEX m'
        = take (Z.to_nat (4 - 1))
            (Fifo.live_entries 4 TIMER_1_EVENT_INDEX example_empty
             ++ [TIMER_2_EVENT_INDEX; TIMER_3_EVENT_INDEX;
                 TIMER_1_EVENT_INDEX; TIMER_2_EVENT_INDEX;
                 TIMER_3_EVENT_INDEX]).
Proof.
  assert (0 < 4 ≤ INT_MAX) as Hrange by (rewrite int_max_val; lia).
  assert (fifo_wf 4 (Fifo.fifo example_empty)) as Hwf
    by (unfold fifo_wf; simpl; lia).
  split; [exact Hrange|]. split; [exact Hwf|].
  apply (overflow_keeps_oldest 4 Hrange TIMER_1_EVENT_INDEX _
           TIMER_1_EVENT_INDEX example_empty Hwf).
Defined.

Lemma producer_consumer_frame_witness :
  let mw :=
    Fifo.mkMachine false
      (mkFifo
         [TIMER_2_EVENT_INDEX; TIMER_1_EVENT_INDEX; TIMER_1_EVENT_INDEX;
          TIMER_1_EVENT_INDEX]
         0 1) in
  Fifo.write_event 4 TIMER_2_EVENT_INDEX example_empty = Some mw
  ∧ Fifo.read_event 4 TIMER_3_EVENT_INDEX example_empty
    = Some (0, TIMER_3_EVENT_INDEX, example_empty)
  ∧ (head (Fifo.fifo mw) = head (Fifo.fifo example_empty)
     ∧ length (buffer (Fifo.fifo mw))
       = length (buffer (Fifo.fifo example_empty))
     ∧ ∀ i : nat, i ≠ Z.to_nat (tail (Fifo.fifo example_empty)) →
         buffer (Fifo.fifo mw) !! i = buffer (Fifo.fifo example_empty) !! i)
  ∧ (tail (Fifo.fifo example_empty) = tail (Fifo.fifo example_empty)
     ∧ buffer (Fifo.fifo example_empty) = buffer (Fifo.fifo example_empty)
     ∧ Fifo.primask example_empty = Fifo.primask example_empty).
Proof.
  intros mw. split; [reflexivity|]. split; [reflexivity|].
  apply (producer_consumer_frame 4 TIMER_2_EVENT_INDEX TIMER_3_EVENT_INDEX
           example_empty mw 0 TIMER_3_EVENT_INDEX example_empty);
    reflexivity.
Defined.

Lemma run_interrupt_mask_witness :
  let m' :=
    Fifo.mkMachine false
      (mkFifo
         [TIMER_1_EVENT_INDEX; TIMER_2_EVENT_INDEX; TIMER_3_EVENT_INDEX;
          TIMER_1_EVENT_INDEX]
         3 0) in
  let out :=
    [(1, TIMER_1_EVENT_INDEX); (1, TIMER_2_EVENT_INDEX);
     (1, TIMER_3_EVENT_INDEX)] in
  run (Fifo.write_event 4) (Fifo.read_event 4) example_ops
    TIMER_3_EVENT_INDEX example_empty
  = Some (out, TIMER_3_EVENT_INDEX, m')
  ∧ Fifo.primask m'
    = if existsb is_write example_ops then false
      else Fifo.primask example_empty.
Proof.
  intros m' out. split; [reflexivity|].
  apply (run_interrupt_mask 4 example_ops TIMER_3_EVENT_INDEX example_empty
           out TIMER_3_EVENT_INDEX m').
  reflexivity.
Defined.

Lemma timer_service_frame_witness :
  (∀ h, UserTimers.handle_of UserTimers.TIMER_2 example_world = Some h →
        UserTimers.Instance h ≠ UserTimers.TIM1)
  ∧ UserTimers.regs
      (UserTimers.timers
         (UserTimers.start_timer UserTimers.TIMER_2 500 example_world))
      UserTimers.TIM1
    = UserTimers.regs (UserTimers.timers example_world) UserTimers.TIM1
  ∧ UserTimers.regs
      (UserTimers.timers (UserTimers.stop_timer UserTimers.TIMER_2 example_world))
      UserTimers.TIM1
    = UserTimers.regs (UserTimers.timers example_world) UserTimers.TIM1
  ∧ UserTimers.htim2
      (UserTimers.start_timer UserTimers.TIMER_2 500 example_world)
    = UserTimers.htim2 example_world.
Proof.
  assert (∀ h, UserTimers.handle_of UserTimers.TIMER_2 example_world = Some h →
               UserTimers.Instance h ≠ UserTimers.TIM1) as Hother
    by (intros h [= <-]; simpl; discriminate).
  split; [exact Hother|].
  destruct (timer_service_frame UserTimers.TIMER_2 500 example_world
              UserTimers.TIM1 Hother)
    as (Hstart & Hstop & _ & Hh2 & _).
  split; [exact Hstart|]. split; [exact Hstop | exact Hh2].
Defined.

Lemma start_timer_negative_duration_witness :
  UserTimers.valid_channel UserTimers.TIMER_1
  ∧ -1 < 0
  ∧ INT_MIN ≤ 10 * -1
  ∧ ∃ h, UserTimers.handle_of UserTimers.TIMER_1 example_world = Some h
      ∧ let r' :=
          UserTimers.regs
            (UserTimers.timers
               (UserTimers.start_timer UserTimers.TIMER_1 (-1) example_world))
            (UserTimers.Instance h) in
        UserTimers.ARR r' = 2 ^ 32 + 10 * -1
        ∧ UserTimers.CR1_CEN r' = true
        ∧ UserTimers.DIER_UIE r' = true.
Proof.
  assert (UserTimers.valid_channel UserTimers.TIMER_1) as Hv by (intros [=]).
  assert (INT_MIN ≤ 10 * -1) as Hmin by (rewrite int_min_val; lia).
  split; [exact Hv|]. split; [lia|]. split; [exact Hmin|].
  apply (start_timer_negative_duration UserTimers.TIMER_1 (-1) example_world Hv);
    [lia | exact Hmin].
Defined.

Lemma elapse_callback_enqueues_witness :
  0 < 4 ≤ INT_MAX
  ∧ fifo_wf 4 (Fifo.fifo example_full)
  ∧ ∃ m',
      HAL_TIM_PeriodElapsedCallback 4 (At_block UserTimers.TIM2) example_full
      = Some m'
      ∧ Fifo.primask m' = false
      ∧ (if bool_decide
              (Z.of_nat
                 (length (Fifo.live_entries 4 TIMER_1_EVENT_INDEX example_full))
               < 4 - 1)
         then Fifo.live_entries 4 TIMER_1_EVENT_INDEX m'
              = Fifo.live_entries 4 TIMER_1_EVENT_INDEX example_full
                ++ [elapse_event UserTimers.TIM2]
         else Fifo.fifo m' = Fifo.fifo example_full).
Proof.
  assert (0 < 4 ≤ INT_MAX) as Hrange by (rewrite int_max_val; lia).
  assert (fifo_wf 4 (Fifo.fifo example_full)) as Hwf
    by (unfold fifo_wf; simpl; lia).
  split; [exact Hrange|]. split; [exact Hwf|].
  apply (proj1 (elapse_callback_enqueues 4 Hrange TIMER_1_EVENT_INDEX
                  (At_block UserTimers.TIM2) example_full Hwf)).
Defined.

Lemma elapses_delivered_in_order_witness :
  let bs :=
    [At_block UserTimers.TIM2; At_other; At_block UserTimers.TIM1;
     At_other; At_block UserTimers.TIM2] in
  0 < 4 ≤ INT_MAX
  ∧ Z.of_nat (length (omap bound_event bs)) < 4
  ∧ Fifo.fifo example_empty = fifo_initial 4 TIMER_1_EVENT_INDEX
  ∧ ∃ m m',
      elapse_all 4 bs example_empty = Some m
      ∧ run (Fifo.write_event 4) (Fifo.read_event 4)
          (replicate (length (omap bound_event bs)) Read) TIMER_3_EVENT_INDEX m
        = Some ((λ e, (1, e)) <$> omap bound_event bs,
                List.last (omap bound_event bs) TIMER_3_EVENT_INDEX,
                m')
      ∧ head (Fifo.fifo m') = tail (Fifo.fifo m').
Proof.
  intros bs.
  assert (0 < 4 ≤ INT_MAX) as Hrange by (rewrite int_max_val; lia).
  split; [exact Hrange|]. split; [simpl; lia|]. split; [reflexivity|].
  apply (elapses_delivered_in_order 4 Hrange TIMER_1_EVENT_INDEX bs
           TIMER_3_EVENT_INDEX example_empty).
  - simpl; lia.
  - reflexivity.
Defined.

Lemma fsm2_drives_only_timer2_witness :
  UserTimers.TIM3 ≠ UserTimers.Instance (UserTimers.htim2 example_world)
  ∧ let m :=
      Nat.iter 5 (FSM2.dispatch S S FSM2.TIMER_2_EVENT)
        (FSM2.initial example_world O) in
    UserTimers.regs (UserTimers.timers (FSM2.world m)) UserTimers.TIM3
    = UserTimers.regs (UserTimers.timers example_world) UserTimers.TIM3
    ∧ UserTimers.htim1 (FSM2.world m) = UserTimers.htim1 example_world
    ∧ UserTimers.htim2 (FSM2.world m) = UserTimers.htim2 example_world
    ∧ UserTimers.htim3 (FSM2.world m) = UserTimers.htim3 example_world.
Proof.
  assert (UserTimers.TIM3
          ≠ UserTimers.Instance (UserTimers.htim2 example_world)) as Hi
    by (simpl; discriminate).
  split; [exact Hi|].
  apply (fsm2_drives_only_timer2 S S example_world O 5 UserTimers.TIM3 Hi).
Defined.

Example example_elapses :
  Fifo.live_entries 4 TIMER_1_EVENT_INDEX
    <$> elapse_all 4
          [At_block UserTimers.TIM2; At_other; At_block UserTimers.TIM1;
           At_block UserTimers.TIM2; At_block UserTimers.TIM3]
          example_empty
  = Some [TIMER_2_EVENT_INDEX; TIMER_1_EVENT_INDEX; TIMER_2_EVENT_INDEX].
Proof. reflexivity. Qed.

Example example_elapse_other :
  HAL_TIM_PeriodElapsedCallback 4 At_other example_empty = Some example_empty.
Proof. reflexivity. Qed.
